(** * Scene coordination of SweetPeepMessenger

    A shallow embedding of [scene_manager.py] (the coordinator:
    [load_scene_state], [load_scene_data], [start_scene], [advance_scene],
    [stop_scene], [get_scene_status], [validate_scene]) and of the turn
    participant of [dialogue_engine.py] ([_check_and_participate],
    [_perform_dialogue_turn], [_send_dialogue_message]).  The further
    sections embed the rest of the scene code: [list_available_scenes],
    the command methods, the polling loop and the monitoring switch of
    [dialogue_engine.py], the four scene commands of [base_bot.py], and the
    token checks of [config.py].

    Modelling choices.
    - A Python value read from a JSON document is a [json]; Python's [None]
      is [JNull], a [dict] is an association list in insertion order.
    - The persisted scene state is the content of one file ([file]); the
      operations pass it explicitly.  The scene directory is a read-only
      function from file names to file contents.
    - Every method wraps its body in [try ... except Exception]; a body is
      a computation of the monad [io] (state file, exceptions, log) and
      [try_except] runs the handler when the body raises.
    - [datetime.utcnow().isoformat()] is a parameter of the operation.
    - Writing the state file is assumed to succeed (storage failures are
      outside the model), and no scene name resolves to the state file. *)

From Stdlib Require Import String List ZArith QArith Bool Lia Arith Relations.
From Stdlib Require Import Sorted Permutation.
Import ListNotations.
Open Scope string_scope.
Open Scope list_scope.
Set Warnings "-register-all".

(** ** Python values *)

Inductive json : Type :=
| JNull
| JBool (b : bool)
| JInt (z : Z)
| JFloat (q : Q)
| JStr (s : string)
| JList (l : list json)
| JObj (d : list (string * json)).

Definition dict := list (string * json).

(** Truth value of a Python object: [None], [False], zero, and the empty
    string, list and dict are false. *)
Definition truthy (v : json) : bool :=
  match v with
  | JNull => false
  | JBool b => b
  | JInt z => negb (Z.eqb z 0)
  | JFloat q => negb (Qeq_bool q 0)
  | JStr s => negb (String.eqb s "")
  | JList l => match l with [] => false | _ => true end
  | JObj d => match d with [] => false | _ => true end
  end.

Definition is_none (v : json) : bool :=
  match v with JNull => true | _ => false end.

(** [v == s] for a string [s]. *)
Definition eq_str (v : json) (s : string) : bool :=
  match v with JStr t => String.eqb t s | _ => false end.

Definition type_name (v : json) : string :=
  match v with
  | JNull => "NoneType"
  | JBool _ => "bool"
  | JInt _ => "int"
  | JFloat _ => "float"
  | JStr _ => "str"
  | JList _ => "list"
  | JObj _ => "dict"
  end.

(** ** Dictionaries in insertion order *)

Fixpoint lookup (k : string) (d : dict) : option json :=
  match d with
  | [] => None
  | (k', v) :: d' => if String.eqb k' k then Some v else lookup k d'
  end.

Definition has_key (k : string) (d : dict) : bool :=
  match lookup k d with Some _ => true | None => false end.

(** [d.get(k)] *)
Definition dget (k : string) (d : dict) : json :=
  match lookup k d with Some v => v | None => JNull end.

(** [d.get(k, dflt)] *)
Definition dget_default (k : string) (dflt : json) (d : dict) : json :=
  match lookup k d with Some v => v | None => dflt end.

(** [d[k] = v]: an existing key keeps its position, a new key goes last. *)
Fixpoint dset (k : string) (v : json) (d : dict) : dict :=
  match d with
  | [] => [(k, v)]
  | (k', v') :: d' =>
      if String.eqb k' k then (k', v) :: d' else (k', v') :: dset k v d'
  end.

Definition keys (d : dict) : list string := map fst d.
Definition values (d : dict) : list json := map snd d.

(** ** Exceptions *)

Inductive exc (A : Type) : Type :=
| Ret (a : A)
| Raise.
Arguments Ret {A} a.
Arguments Raise {A}.

(** [v.get(k)]: only a dict has the method. *)
Definition py_get (v : json) (k : string) : exc json :=
  match v with JObj d => Ret (dget k d) | _ => Raise end.

Definition py_get_default (v : json) (k : string) (dflt : json) : exc json :=
  match v with JObj d => Ret (dget_default k dflt d) | _ => Raise end.

(** [d.get(k)] and [k in d] for a dict [d] and an arbitrary key object [k]:
    lists and dicts are unhashable, and no key of a JSON object equals a
    non-string. *)
Definition dget_obj (k : json) (d : dict) : exc json :=
  match k with
  | JStr s => Ret (dget s d)
  | JList _ | JObj _ => Raise
  | _ => Ret JNull
  end.

Definition din_obj (k : json) (d : dict) : exc bool :=
  match k with
  | JStr s => Ret (has_key s d)
  | JList _ | JObj _ => Raise
  | _ => Ret false
  end.

Fixpoint prefix_at (s t : string) : bool :=
  match s with
  | EmptyString => true
  | String a s' =>
      match t with
      | EmptyString => false
      | String b t' => if Ascii.eqb a b then prefix_at s' t' else false
      end
  end.

Fixpoint substring_of (s t : string) : bool :=
  if prefix_at s t then true
  else match t with
       | EmptyString => false
       | String _ t' => substring_of s t'
       end.

(** [s in v] for a string [s]: key test on a dict, element test on a list,
    substring test on a string, [TypeError] otherwise. *)
Definition py_str_in (s : string) (v : json) : exc bool :=
  match v with
  | JObj d => Ret (has_key s d)
  | JList l => Ret (existsb (fun x => eq_str x s) l)
  | JStr t => Ret (substring_of s t)
  | _ => Raise
  end.

(** [v[s]] for a string [s]: defined on a dict that has the key. *)
Definition py_getitem (v : json) (s : string) : exc json :=
  match v with
  | JObj d => match lookup s d with Some x => Ret x | None => Raise end
  | _ => Raise
  end.

(** [v[k] = x]: item assignment with a string key works on a dict only. *)
Definition py_setitem (v : json) (k : string) (x : json) : exc json :=
  match v with JObj d => Ret (JObj (dset k x d)) | _ => Raise end.

(** ** Effects: the state file and the log

    A method runs on the current content of the state file and yields a
    result or an exception, the new content of the file, and the events
    it caused.  A log record keeps the level and the message template of
    the [logger] call (interpolated values are left out). *)

(** A file is absent, present but not readable as JSON, or holds a value. *)
Inductive file : Type :=
| Missing
| Unreadable
| Parsed (j : json).

Inductive level : Type := DEBUG | INFO | WARNING | ERROR.

(** What a method does besides returning: a [logger] call, a message
    handed to [channel.send] (speaker and text), an [asyncio.sleep], and a
    participant's call of the coordinator's [advance_scene]. *)
Inductive event : Type :=
| Log (l : level) (msg : string)
| Send (message : string * json)
| Sleep (seconds : Q)
| Advance.

Record outcome (A : Type) : Type := mkOutcome {
  result : exc A;
  disk : file;
  trace : list event
}.
Arguments mkOutcome {A} _ _ _.
Arguments result {A} _.
Arguments disk {A} _.
Arguments trace {A} _.

Definition io (A : Type) : Type := file -> outcome A.

Definition ret {A} (a : A) : io A := fun f => mkOutcome (Ret a) f [].

Definition raise {A} : io A := fun f => mkOutcome Raise f [].

Definition lift {A} (m : exc A) : io A := fun f => mkOutcome m f [].

(** Sequencing: the continuation runs on the file the first part left,
    and the events of both are kept in order. *)
Definition prepend {A} (t : list event) (r : outcome A) : outcome A :=
  match r with
  | mkOutcome x d t' => mkOutcome x d (t ++ t')
  end.

Definition iobind {A B} (m : io A) (k : A -> io B) : io B :=
  fun f =>
    match m f with
    | mkOutcome (Ret a) d t => prepend t (k a d)
    | mkOutcome Raise d t => mkOutcome Raise d t
    end.

(** [try: body except Exception: handler] *)
Definition try_except {A} (body handler : io A) : io A :=
  fun f =>
    match body f with
    | mkOutcome (Ret a) d t => mkOutcome (Ret a) d t
    | mkOutcome Raise d t => prepend t (handler d)
    end.

Definition logger (l : level) (msg : string) : io unit :=
  fun f => mkOutcome (Ret tt) f [Log l msg].

Declare Scope io_scope.
Delimit Scope io_scope with io.
Notation "x <~ m ;; k" := (iobind m (fun x => k))
  (at level 61, m at next level, right associativity) : io_scope.
Notation "m ;;; k" := (iobind m (fun _ => k))
  (at level 61, right associativity) : io_scope.
Open Scope io_scope.

Definition load_scene_state_value (f : file) : json :=
  match f with
  | Missing | Unreadable => JObj []
  | Parsed j => j
  end.

(** The scene directory: file name to content.  It is never written. *)
Definition scene_store := string -> file.

(** [load_scene_state]: a missing file and a file that cannot be read or
    parsed both give the empty dict. *)
Definition load_scene_state : io json :=
  fun f =>
    mkOutcome (Ret (load_scene_state_value f)) f
      [match f with
       | Missing => Log DEBUG "Scene state file not found, returning empty state"
       | Unreadable => Log ERROR "Invalid JSON in scene state file: {e}"
       | Parsed _ => Log DEBUG "Loaded scene state: {state}"
       end].

(** [save_scene_state]: the whole record is replaced. *)
Definition save_scene_state (state : json) : io unit :=
  fun _ => mkOutcome (Ret tt) (Parsed state) [Log DEBUG "Saved scene state: {state}"].

(** The file that [os.path.join(DIALOGUE_DIR, scene_name)] names: the empty
    name gives the directory itself, which exists and is no JSON file. *)
Definition scene_file (store : scene_store) (scene_name : string) : file :=
  if String.eqb scene_name "" then Unreadable else store scene_name.

(** [load_scene_data]: [os.path.join] sits outside the [try] and raises on a
    name that is not a string; a missing or unreadable file gives [None]. *)
Definition load_scene_data (store : scene_store) (scene_name : json) : io json :=
  match scene_name with
  | JStr s =>
      match scene_file store s with
      | Missing =>
          logger ERROR "Scene file not found: {scene_file}" ;;; ret JNull
      | Unreadable =>
          logger ERROR "Invalid JSON in scene file {scene_name}: {e}" ;;; ret JNull
      | Parsed j =>
          logger DEBUG "Loaded scene data for {scene_name}" ;;; ret j
      end
  | _ => raise
  end.

(** ** The coordinator *)

Definition initial_state (scene_name starting_node : string)
    (first_speaker : json) (now : string) : json :=
  JObj [ ("scene", JStr scene_name);
         ("current_node", JStr starting_node);
         ("next_speaker", first_speaker);
         ("waiting_for_choice", JBool false);
         ("started_at", JStr now);
         ("scene_active", JBool true) ].

Definition start_scene (store : scene_store) (now : string)
    (scene_name : string) (starting_node : string) : io bool :=
  try_except
    (scene_data <~ load_scene_data store (JStr scene_name) ;;
     if negb (truthy scene_data) then
       logger ERROR "Cannot start scene: {scene_name} not found" ;;; ret false
     else
       found <~ lift (py_str_in starting_node scene_data) ;;
       if negb found then
         logger ERROR "Starting node '{starting_node}' not found in scene {scene_name}" ;;;
         ret false
       else
         first_node <~ lift (py_getitem scene_data starting_node) ;;
         first_speaker <~ lift (py_get first_node "speaker") ;;
         if negb (truthy first_speaker) then
           logger ERROR "No speaker defined for starting node in {scene_name}" ;;;
           ret false
         else
           save_scene_state (initial_state scene_name starting_node first_speaker now) ;;;
           logger INFO "Started scene '{scene_name}' with first speaker '{first_speaker}'" ;;;
           ret true)
    (logger ERROR "Error starting scene {scene_name}: {e}" ;;; ret false).

(** The [next] rule of a node (lines 186-197): a string is the next node;
    a mapping gives the target of ["continue"] when it has that key and
    otherwise its first value ([None] when it is empty); anything else is
    an invalid format. *)
Definition resolve_next (next_info : json) : option json :=
  match next_info with
  | JStr s => Some (JStr s)
  | JObj m =>
      if has_key "continue" m then Some (dget "continue" m)
      else Some (match values m with v :: _ => v | [] => JNull end)
  | _ => None
  end.

(** [d[k]] for a dict [d] and an arbitrary key object. *)
Definition dgetitem_obj (k : json) (d : dict) : exc json :=
  match k with
  | JStr s => match lookup s d with Some x => Ret x | None => Raise end
  | _ => Raise
  end.

Definition advance_scene (store : scene_store) (now : string) : io json :=
  try_except
    (state <~ load_scene_state ;;
     idle <~ (if negb (truthy state) then ret true
              else active <~ lift (py_get state "scene_active") ;;
                   ret (negb (truthy active))) ;;
     if (idle : bool) then
       logger DEBUG "No active scene to advance" ;;; ret JNull
     else
       scene_name <~ lift (py_get state "scene") ;;
       current_node <~ lift (py_get state "current_node") ;;
       if negb (truthy scene_name) || negb (truthy current_node) then
         logger ERROR "Invalid scene state: missing scene or current_node" ;;;
         ret JNull
       else
         scene_data <~ load_scene_data store scene_name ;;
         if negb (truthy scene_data) then
           logger ERROR "Cannot advance scene: {scene_name} data not found" ;;;
           ret JNull
         else
           match scene_data with
           | JObj graph =>
               node_data <~ lift (dget_obj current_node graph) ;;
               if negb (truthy node_data) then
                 logger ERROR "Current node '{current_node}' not found in scene data" ;;;
                 ret JNull
               else
                 next_info <~ lift (py_get node_data "next") ;;
                 if is_none next_info then
                   s1 <~ lift (py_setitem state "scene_active" (JBool false)) ;;
                   s2 <~ lift (py_setitem s1 "current_node" JNull) ;;
                   s3 <~ lift (py_setitem s2 "next_speaker" JNull) ;;
                   s4 <~ lift (py_setitem s3 "ended_at" (JStr now)) ;;
                   save_scene_state s4 ;;;
                   logger INFO "Scene '{scene_name}' has ended" ;;;
                   ret JNull
                 else
                   match resolve_next next_info with
                   | None =>
                       logger ERROR "Invalid next node format in {current_node}: {next_info}" ;;;
                       ret JNull
                   | Some next_node =>
                       unknown <~ (if negb (truthy next_node) then ret true
                                   else found <~ lift (din_obj next_node graph) ;;
                                        ret (negb found)) ;;
                       if (unknown : bool) then
                         logger ERROR "Next node '{next_node}' not found in scene data" ;;;
                         ret JNull
                       else
                         next_node_data <~ lift (dgetitem_obj next_node graph) ;;
                         next_speaker <~ lift (py_get next_node_data "speaker") ;;
                         if negb (truthy next_speaker) then
                           logger ERROR "No speaker defined for next node '{next_node}'" ;;;
                           ret JNull
                         else
                           s1 <~ lift (py_setitem state "current_node" next_node) ;;
                           s2 <~ lift (py_setitem s1 "next_speaker" next_speaker) ;;
                           s3 <~ lift (py_setitem s2 "waiting_for_choice" (JBool false)) ;;
                           save_scene_state s3 ;;;
                           logger INFO "Advanced scene to node '{next_node}', next speaker: '{next_speaker}'" ;;;
                           ret next_node_data
                   end
           | _ => raise   (* [scene_data.get]: not a dict *)
           end)
    (logger ERROR "Error advancing scene: {e}" ;;; ret JNull).

Definition stop_scene (now : string) : io bool :=
  try_except
    (state <~ load_scene_state ;;
     if negb (truthy state) then
       logger DEBUG "No scene state to stop" ;;; ret true
     else
       s1 <~ lift (py_setitem state "scene_active" (JBool false)) ;;
       s2 <~ lift (py_setitem s1 "current_node" JNull) ;;
       s3 <~ lift (py_setitem s2 "next_speaker" JNull) ;;
       s4 <~ lift (py_setitem s3 "stopped_at" (JStr now)) ;;
       save_scene_state s4 ;;;
       logger INFO "Scene stopped" ;;;
       ret true)
    (logger ERROR "Error stopping scene: {e}" ;;; ret false).

(** The handler reports [str(e)]; the only exception the body can raise is
    the [AttributeError] of [state.get] on a value that is not a dict. *)
Definition get_scene_status : io json :=
  fun f =>
    try_except
      (state <~ load_scene_state ;;
       if negb (truthy state) then ret (JObj [("active", JBool false)])
       else
         active <~ lift (py_get_default state "scene_active" (JBool false)) ;;
         scene <~ lift (py_get state "scene") ;;
         current_node <~ lift (py_get state "current_node") ;;
         next_speaker <~ lift (py_get state "next_speaker") ;;
         waiting <~ lift (py_get_default state "waiting_for_choice" (JBool false)) ;;
         started_at <~ lift (py_get state "started_at") ;;
         ended_at <~ lift (py_get state "ended_at") ;;
         stopped_at <~ lift (py_get state "stopped_at") ;;
         ret (JObj [ ("active", active); ("scene", scene);
                     ("current_node", current_node);
                     ("next_speaker", next_speaker);
                     ("waiting_for_choice", waiting);
                     ("started_at", started_at);
                     ("ended_at", ended_at);
                     ("stopped_at", stopped_at) ]))
      (logger ERROR "Error getting scene status: {e}" ;;;
       ret (JObj [ ("active", JBool false);
                   ("error", JStr ("'" ++ type_name (load_scene_state_value f)
                                   ++ "' object has no attribute 'get'")%string) ]))
      f.

(** ** The turn participant *)

(** The delivery collaborator as the participant sees it: no client object,
    no channel, or a channel whose [send] succeeds or raises. *)
Inductive delivery : Type :=
| NoBot
| NoChannel
| Channel (send_ok : bool).

Record participant : Type := mkParticipant {
  bot_name : string;
  bot_instance : delivery
}.

(** [text[:50]]: slicing is defined on strings and lists. *)
Definition py_sliceable (v : json) : exc unit :=
  match v with JStr _ | JList _ => Ret tt | _ => Raise end.

(** The least integer without a float.  An [int] is converted to the
    nearest float, and the largest float is [2^1024 - 2^971]: from
    [2^1024 - 2^970] on the nearest one would be [2^1024], and the
    conversion raises [OverflowError]. *)
Definition float_limit : Z := (2 ^ 1024 - 2 ^ 970)%Z.

Arguments float_limit : simpl never.

(** [asyncio.sleep(delay)] compares [delay] with zero, which raises
    [TypeError] on anything but a number or a bool.  A delay that is not
    positive returns at once; a positive one is added to the float
    [loop.time()] in [call_later], which raises [OverflowError] on an
    [int] without a float.  A [JFloat] holds the value of a finite float:
    the infinities and NaN, which [json.load] also reads, are no values of
    [json], and a wait of that kind is outside the model. *)
Definition py_sleep (delay : json) : io unit :=
  match delay with
  | JInt z =>
      if (float_limit <=? z)%Z then raise
      else fun f => mkOutcome (Ret tt) f [Sleep (inject_Z z)]
  | JFloat q => fun f => mkOutcome (Ret tt) f [Sleep q]
  | JBool b => fun f => mkOutcome (Ret tt) f [Sleep (if b then 1 else 0)%Q]
  | _ => raise
  end.

Definition channel_send (p : participant) (text : json) : io unit :=
  fun f => mkOutcome (Ret tt) f [Send (bot_name p, text)].

Definition _send_dialogue_message (p : participant) (node_data : json) : io unit :=
  try_except
    (match bot_instance p with
     | NoBot =>
         logger ERROR "[{self.bot_name}] No bot instance available for sending message"
     | NoChannel =>
         logger ERROR "[{self.bot_name}] Could not find channel {config.WELCOME_CHANNEL_ID}"
     | Channel send_ok =>
         text <~ lift (py_get_default node_data "text" (JStr "")) ;;
         (if send_ok then channel_send p text else raise) ;;;
         lift (py_sliceable text) ;;;
         logger INFO "[{self.bot_name}] Sent dialogue: {text[:50]}..."
     end)
    (logger ERROR "Error sending dialogue message for {self.bot_name}: {e}").

Definition _perform_dialogue_turn (p : participant) (store : scene_store)
    (now : string) (state : json) : io unit :=
  try_except
    (scene_name <~ lift (py_get state "scene") ;;
     current_node <~ lift (py_get state "current_node") ;;
     if negb (truthy scene_name) || negb (truthy current_node) then
       logger ERROR "[{self.bot_name}] Invalid scene state: missing scene or node"
     else
       scene_data <~ load_scene_data store scene_name ;;
       if negb (truthy scene_data) then
         logger ERROR "[{self.bot_name}] Could not load scene data for {scene_name}"
       else
         match scene_data with
         | JObj graph =>
             node_data <~ lift (dget_obj current_node graph) ;;
             if negb (truthy node_data) then
               logger ERROR "[{self.bot_name}] Node '{current_node}' not found in scene"
             else
               speaker <~ lift (py_get node_data "speaker") ;;
               if negb (eq_str speaker (bot_name p)) then
                 logger WARNING "[{self.bot_name}] Speaker mismatch in node '{current_node}'"
               else
                 _send_dialogue_message p node_data ;;;
                 wait_time <~ lift (py_get_default node_data "wait" (JInt 2)) ;;
                 py_sleep wait_time ;;;
                 (fun f => mkOutcome (Ret tt) f [Advance]) ;;;
                 advance_scene store now ;;;
                 logger INFO "[{self.bot_name}] Completed dialogue turn for node '{current_node}'"
         | _ => raise   (* [scene_data.get]: not a dict *)
         end)
    (logger ERROR "Error performing dialogue turn for {self.bot_name}: {e}").

Definition _check_and_participate (p : participant) (store : scene_store)
    (now : string) : io unit :=
  try_except
    (state <~ load_scene_state ;;
     logger DEBUG "[{self.bot_name}] Scene state: {state}" ;;;
     idle <~ (if negb (truthy state) then ret true
              else active <~ lift (py_get state "scene_active") ;;
                   ret (negb (truthy active))) ;;
     if (idle : bool) then ret tt
     else
       next_speaker <~ lift (py_get state "next_speaker") ;;
       if negb (eq_str next_speaker (bot_name p)) then ret tt
       else _perform_dialogue_turn p store now state)
    (logger ERROR "Error checking scene participation for {self.bot_name}: {e}").

(** ** Validation of a scene file *)

(** The entries of the error list, one constructor per message of
    [validate_scene]. *)
Inductive verror : Type :=
| ENotFound                    (* Scene file not found or invalid JSON *)
| EMissingStart                (* Missing 'start' node *)
| ENotDict (node : string)     (* Node '..' is not a dictionary *)
| EMissingSpeaker (node : string)
| EMissingText (node : string)
| EBadNext (node target : string)
| EBadChoice (node choice : string) (target : json)
| EValidation.                 (* Validation error: {e} *)

Record validation : Type := mkValidation {
  valid : bool;
  errors : list verror;
  warnings : list string;
  nodes : nat;
  speakers : list json
}.

(** Equality of hashable values: [True == 1 == 1.0]. *)
Definition number_of (v : json) : option Q :=
  match v with
  | JBool b => Some (if b then 1 else 0)%Q
  | JInt z => Some (inject_Z z)
  | JFloat q => Some q
  | _ => None
  end.

Definition hash_eq (a b : json) : bool :=
  match a, b with
  | JNull, JNull => true
  | JStr s, JStr t => String.eqb s t
  | _, _ =>
      match number_of a, number_of b with
      | Some x, Some y => Qeq_bool x y
      | _, _ => false
      end
  end.

(** [speakers.add(v)]: lists and dicts are unhashable.  The set is kept as
    the list of its elements in order of first insertion. *)
Definition set_add (v : json) (s : list json) : exc (list json) :=
  match v with
  | JList _ | JObj _ => Raise
  | _ => Ret (if existsb (hash_eq v) s then s else s ++ [v])
  end.

(** The loop keeps the error list and the speaker set; the flag tells that
    an exception left the loop, with both as they were at that point. *)
Definition vstate : Type := (list verror * list json) * bool.

Fixpoint validate_choices (graph : dict) (node_name : string)
    (choices : dict) (errs : list verror) : list verror * bool :=
  match choices with
  | [] => (errs, false)
  | (choice, target) :: rest =>
      match din_obj target graph with
      | Raise => (errs, true)
      | Ret true => validate_choices graph node_name rest errs
      | Ret false =>
          validate_choices graph node_name rest
            (errs ++ [EBadChoice node_name choice target])
      end
  end.

Definition validate_node (graph : dict) (node_name : string)
    (node_data : json) (errs : list verror) (spk : list json) : vstate :=
  match node_data with
  | JObj n =>
      let after_speaker :=
        if has_key "speaker" n then
          match set_add (dget "speaker" n) spk with
          | Ret spk' => ((errs, spk'), false)
          | Raise => ((errs, spk), true)
          end
        else ((errs ++ [EMissingSpeaker node_name], spk), false) in
      match after_speaker with
      | (st, true) => (st, true)
      | ((errs1, spk1), false) =>
          let errs2 :=
            if has_key "text" n then errs1
            else errs1 ++ [EMissingText node_name] in
          match dget "next" n with
          | JStr t =>
              ((if has_key t graph then errs2
                else errs2 ++ [EBadNext node_name t], spk1), false)
          | JObj m =>
              let '(errs3, raised) := validate_choices graph node_name m errs2 in
              ((errs3, spk1), raised)
          | _ => ((errs2, spk1), false)
          end
      end
  | _ => ((errs ++ [ENotDict node_name], spk), false)
  end.

Fixpoint validate_nodes (graph : dict) (items : dict)
    (errs : list verror) (spk : list json) : vstate :=
  match items with
  | [] => ((errs, spk), false)
  | (node_name, node_data) :: rest =>
      match validate_node graph node_name node_data errs spk with
      | (st, true) => (st, true)
      | ((errs', spk'), false) => validate_nodes graph rest errs' spk'
      end
  end.

(** [len(v)] *)
Definition py_len (v : json) : exc nat :=
  match v with
  | JObj d => Ret (List.length d)
  | JList l => Ret (List.length l)
  | JStr s => Ret (String.length s)
  | _ => Raise
  end.

(** The body of [validate_scene] once the file is loaded. *)
Definition validate_data (scene_data : json) : validation :=
  if negb (truthy scene_data) then mkValidation false [ENotFound] [] 0 []
  else
    match py_len scene_data with
    | Raise => mkValidation false [EValidation] [] 0 []
    | Ret n =>
        match py_str_in "start" scene_data with
        | Raise => mkValidation false [EValidation] [] n []
        | Ret has_start =>
            let errs0 := if has_start then [] else [EMissingStart] in
            match scene_data with
            | JObj graph =>
                match validate_nodes graph graph errs0 [] with
                | ((errs, spk), true) =>
                    mkValidation false (errs ++ [EValidation]) [] n spk
                | ((errs, spk), false) =>
                    mkValidation (Nat.eqb (List.length errs) 0) errs [] n spk
                end
            | _ => mkValidation false (errs0 ++ [EValidation]) [] n []
            end
        end
    end.

Definition validate_scene (store : scene_store) (scene_name : string) : io validation :=
  scene_data <~ load_scene_data store (JStr scene_name) ;;
  ret (validate_data scene_data).

(** ** Reading the persisted state *)

(** A field of the persisted record, [None] when there is none. *)
Definition field (k : string) (f : file) : json :=
  match load_scene_state_value f with
  | JObj st => dget k st
  | _ => JNull
  end.

Definition scene_active (f : file) : bool := truthy (field "scene_active" f).

(** The state file holds a record (or nothing that can be read). *)
Definition is_record (f : file) : bool :=
  match load_scene_state_value f with JObj _ => true | _ => false end.

(** The graph a scene name denotes, if its file holds a mapping. *)
Definition graph_of (store : scene_store) (scene_name : string) : option dict :=
  match scene_file store scene_name with
  | Parsed (JObj g) => Some g
  | _ => None
  end.

(** The state invariant: an active state has [scene], [current_node] and
    [next_speaker], and [current_node] is a node of the graph of [scene];
    an inactive state has neither [current_node] nor [next_speaker]. *)
Definition state_inv (store : scene_store) (f : file) : bool :=
  if scene_active f then
    negb (is_none (field "scene" f))
    && negb (is_none (field "current_node" f))
    && negb (is_none (field "next_speaker" f))
    && match field "scene" f, field "current_node" f with
       | JStr s, JStr c =>
           match graph_of store s with
           | Some g => has_key c g
           | None => false
           end
       | _, _ => false
       end
  else is_none (field "current_node" f) && is_none (field "next_speaker" f).

(** [n] calls of [advance_scene] in a row; [clock i] is the time of call [i]. *)
Fixpoint advance_times (store : scene_store) (clock : nat -> string)
    (n : nat) (f : file) : file :=
  match n with
  | O => f
  | S m =>
      advance_times store (fun i => clock (S i)) m
        (disk (advance_scene store (clock O) f))
  end.

(** ** Graphs *)

(** The node names a [next] rule mentions. *)
Definition targets (node_data : json) : list json :=
  match node_data with
  | JObj n =>
      match dget "next" n with
      | JStr t => [JStr t]
      | JObj m => values m
      | _ => []
      end
  | _ => []
  end.

Definition edge (g : dict) (a b : string) : Prop :=
  exists nd, lookup a g = Some nd /\ In (JStr b) (targets nd).

Definition acyclic (g : dict) : Prop :=
  forall a, ~ clos_trans string (edge g) a a.

(** A target that [advance_scene] can move to. *)
Definition target_ok (g : dict) (v : json) : bool :=
  match v with
  | JStr t => negb (String.eqb t "") && has_key t g
  | _ => false
  end.

(** A node that [advance_scene] can leave: a record with a speaker that
    counts as true and a [next] that is absent, a node name, or a mapping
    with at least one entry, every target being a non-empty name of a node. *)
Definition node_ok (g : dict) (node_data : json) : bool :=
  match node_data with
  | JObj n =>
      truthy (dget "speaker" n)
      && match dget "next" n with
         | JNull => true
         | JStr t => target_ok g (JStr t)
         | JObj m => negb (Nat.eqb (List.length m) 0) && forallb (target_ok g) (values m)
         | _ => false
         end
  | _ => false
  end.

Definition well_formed (g : dict) : bool :=
  has_key "start" g && forallb (node_ok g) (values g).

(** ** What a call of [advance_scene] or [stop_scene] writes *)

Definition is_error (e : event) : bool :=
  match e with Log ERROR _ => true | _ => false end.

(** Some [logger.error] call was made. *)
Definition logged_error (tr : list event) : bool := existsb is_error tr.

Definition ended_state (now : string) (st : dict) : dict :=
  dset "ended_at" (JStr now)
    (dset "next_speaker" JNull
       (dset "current_node" JNull
          (dset "scene_active" (JBool false) st))).

Definition moved_state (next_node next_speaker : json) (st : dict) : dict :=
  dset "waiting_for_choice" (JBool false)
    (dset "next_speaker" next_speaker
       (dset "current_node" next_node st)).

Definition stopped_state (now : string) (st : dict) : dict :=
  dset "stopped_at" (JStr now)
    (dset "next_speaker" JNull
       (dset "current_node" JNull
          (dset "scene_active" (JBool false) st))).

(** The ways through [advance_scene]: nothing to advance, an error, the end
    of the scene, a move to the next node. *)
Inductive advance_path (store : scene_store) (now : string) (f : file)
    (r : outcome json) : Prop :=
| path_idle :
    scene_active f = false -> result r = Ret JNull -> disk r = f ->
    advance_path store now f r
| path_failed :
    scene_active f = true -> logged_error (trace r) = true ->
    result r = Ret JNull -> disk r = f ->
    advance_path store now f r
| path_ended st s c g nd :
    f = Parsed (JObj st) -> truthy (dget "scene_active" st) = true ->
    dget "scene" st = JStr s -> dget "current_node" st = JStr c ->
    graph_of store s = Some g -> lookup c g = Some (JObj nd) ->
    dget "next" nd = JNull ->
    logged_error (trace r) = false ->
    result r = Ret JNull -> disk r = Parsed (JObj (ended_state now st)) ->
    advance_path store now f r
| path_moved st s c g nd t tn :
    f = Parsed (JObj st) -> truthy (dget "scene_active" st) = true ->
    dget "scene" st = JStr s -> dget "current_node" st = JStr c ->
    graph_of store s = Some g -> lookup c g = Some (JObj nd) ->
    resolve_next (dget "next" nd) = Some (JStr t) -> t <> "" ->
    lookup t g = Some (JObj tn) -> truthy (dget "speaker" tn) = true ->
    logged_error (trace r) = false ->
    result r = Ret (JObj tn) ->
    disk r = Parsed (JObj (moved_state (JStr t) (dget "speaker" tn) st)) ->
    advance_path store now f r.

(** The persisted state is an active record of scene [s] at node [c]. *)
Definition at_node (s c : string) (f : file) : Prop :=
  exists st, f = Parsed (JObj st) /\ truthy (dget "scene_active" st) = true /\
             dget "scene" st = JStr s /\ dget "current_node" st = JStr c.

(** The choice rule in the words of the specification: the target of
    ["continue"] when the mapping has that key, otherwise its first entry. *)
Definition spec_choice (m : dict) : option json :=
  match lookup "continue" m with
  | Some v => Some v
  | None => match m with (_, v) :: _ => Some v | [] => None end
  end.

(** A participant acted: it sent a message, slept, or called [advance_scene]. *)
Definition is_action (e : event) : bool :=
  match e with Log _ _ => false | _ => true end.

(** ** Sample scenes *)

(** The two-node scene of the specification. *)
Definition demo_graph : dict :=
  [ ("start", JObj [("speaker", JStr "A"); ("text", JStr "hi"); ("next", JStr "end")]);
    ("end", JObj [("speaker", JStr "B"); ("text", JStr "bye")]) ].

(** A branch node whose mapping lists ["continue"] second. *)
Definition choice_graph : dict :=
  [ ("start", JObj [("speaker", JStr "A"); ("text", JStr "well?");
                    ("next", JObj [("yes", JStr "nodeY"); ("continue", JStr "nodeC")])]);
    ("nodeY", JObj [("speaker", JStr "B"); ("text", JStr "yes")]);
    ("nodeC", JObj [("speaker", JStr "C"); ("text", JStr "go on")]) ].

(** A scene whose only node continues with itself. *)
Definition loop_graph : dict :=
  [ ("start", JObj [("speaker", JStr "A"); ("text", JStr "again"); ("next", JStr "start")]) ].

(** A scene that validation accepts and whose start node has a choice
    mapping without entries. *)
Definition stuck_graph : dict :=
  [ ("start", JObj [("speaker", JStr "A"); ("text", JStr "hi"); ("next", JObj [])]) ].

(** A scene that validation accepts and whose second node has the empty
    string as speaker. *)
Definition mute_graph : dict :=
  [ ("start", JObj [("speaker", JStr "A"); ("text", JStr "hi"); ("next", JStr "end")]);
    ("end", JObj [("speaker", JStr ""); ("text", JStr "bye")]) ].

Definition demo_store : scene_store :=
  fun name =>
    if String.eqb name "demo.json" then Parsed (JObj demo_graph)
    else if String.eqb name "choice.json" then Parsed (JObj choice_graph)
    else if String.eqb name "loop.json" then Parsed (JObj loop_graph)
    else if String.eqb name "stuck.json" then Parsed (JObj stuck_graph)
    else if String.eqb name "mute.json" then Parsed (JObj mute_graph)
    else if String.eqb name "broken.json" then Unreadable
    else Missing.

(** The record [start_scene] writes for a scene, moved to a given node. *)
Definition state_at (scene node : string) (speaker : json) : file :=
  Parsed (initial_state scene node speaker "2024-01-01T00:00:00").

Definition sample_clock : nat -> string := fun _ => "2024-01-01T00:00:05".

(** ** Listing the scene directory *)

(** What [os.path.exists] and [os.listdir] find at the dialogue directory:
    nothing, a failure of the listing, or the names of the entries in the
    order the system reports them. *)
Inductive directory : Type :=
| NoDirectory
| ListingFails
| Entries (names : list string).

(** [s.endswith(suffix)]: [s] is [suffix], or what follows its first
    character ends with [suffix]. *)
Fixpoint endswith (s suffix : string) : bool :=
  if String.eqb s suffix then true
  else match s with
       | EmptyString => false
       | String _ rest => endswith rest suffix
       end.

(** [sorted] on strings: the order on strings is total and antisymmetric,
    so the sorted list is determined by the elements; it is built here by
    insertion. *)
Fixpoint insert_sorted (x : string) (l : list string) : list string :=
  match l with
  | [] => [x]
  | y :: rest =>
      if String.leb x y then x :: y :: rest else y :: insert_sorted x rest
  end.

Definition py_sorted (l : list string) : list string :=
  fold_right insert_sorted [] l.

Definition list_available_scenes (dir : directory) : io (list string) :=
  try_except
    (match dir with
     | NoDirectory => ret []
     | ListingFails => raise
     | Entries names =>
         ret (py_sorted (filter (fun filename => endswith filename ".json") names))
     end)
    (logger ERROR "Error listing scenes: {e}" ;;; ret []).

(** ** The command methods of the dialogue engine *)

Definition start_scene_command (store : scene_store) (now : string)
    (scene_name : string) : io json :=
  try_except
    (success <~ start_scene store now scene_name "start" ;;
     if (success : bool) then
       ret (JObj [ ("success", JBool true);
                   ("message", JStr ("🎭 Scene '" ++ scene_name
                                     ++ "' started! Let the dialogue begin!")%string) ])
     else
       ret (JObj [ ("success", JBool false);
                   ("message", JStr ("❌ Failed to start scene '" ++ scene_name
                                     ++ "'. Check if the scene file exists and is valid.")%string) ]))
    (logger ERROR "Error starting scene {scene_name}: {e}" ;;;
     ret (JObj [ ("success", JBool false);
                 ("message", JStr "❌ Error starting scene: {e}") ])).

Definition stop_scene_command (now : string) : io json :=
  try_except
    (success <~ stop_scene now ;;
     if (success : bool) then
       ret (JObj [ ("success", JBool true);
                   ("message", JStr "🛑 Scene stopped successfully.") ])
     else
       ret (JObj [ ("success", JBool false);
                   ("message", JStr "❌ Failed to stop scene.") ]))
    (logger ERROR "Error stopping scene: {e}" ;;;
     ret (JObj [ ("success", JBool false);
                 ("message", JStr "❌ Error stopping scene: {e}") ])).

(** [DialogueEngine.get_scene_status] and [DialogueEngine.list_scenes]. *)
Definition engine_get_scene_status : io json :=
  try_except get_scene_status
    (logger ERROR "Error getting scene status: {e}" ;;;
     ret (JObj [ ("active", JBool false); ("error", JStr "{e}") ])).

Definition list_scenes (dir : directory) : io (list string) :=
  try_except (list_available_scenes dir)
    (logger ERROR "Error listing scenes: {e}" ;;; ret []).

(** ** The scene commands of the coordinator bot *)

(** What a slash command does with its interaction: it defers the
    response and then sends one follow-up, a text (public or ephemeral) or
    an embed. *)
Inductive embed_color : Type := Green | Red | Blue | Orange.

Record embed : Type := mkEmbed {
  embed_title : string;
  embed_description : string;
  embed_color_of : embed_color;
  embed_fields : list (string * json * bool)
}.

Inductive response : Type :=
| Defer
| Followup (content : json) (ephemeral : bool)
| FollowupEmbed (e : embed).

(** The handler [start_scene] of [add_scene_commands]. *)
Definition startscene (store : scene_store) (now : string)
    (scene_name : string) : io (list response) :=
  result <~ start_scene_command store now scene_name ;;
  success <~ lift (py_getitem result "success") ;;
  message <~ lift (py_getitem result "message") ;;
  if truthy success then ret [Defer; Followup message false]
  else ret [Defer; Followup message true].

(** The handler [stop_scene] of [add_scene_commands]. *)
Definition stopscene (now : string) : io (list response) :=
  result <~ stop_scene_command now ;;
  success <~ lift (py_getitem result "success") ;;
  message <~ lift (py_getitem result "message") ;;
  if truthy success then ret [Defer; Followup message false]
  else ret [Defer; Followup message true].

(** The handler [scene_status] of [add_scene_commands]. *)
Definition scenestatus : io (list response) :=
  status <~ engine_get_scene_status ;;
  active <~ lift (py_get status "active") ;;
  if truthy active then
    scene <~ lift (py_get_default status "scene" (JStr "Unknown")) ;;
    current_node <~ lift (py_get_default status "current_node" (JStr "Unknown")) ;;
    next_speaker <~ lift (py_get_default status "next_speaker" (JStr "Unknown")) ;;
    started_at <~ lift (py_get status "started_at") ;;
    ret [ Defer;
          FollowupEmbed
            (mkEmbed "🎭 Scene Status" "A scene is currently active" Green
               ([ ("Scene", scene, true);
                  ("Current Node", current_node, true);
                  ("Next Speaker", next_speaker, true) ]
                ++ (if truthy started_at then [("Started At", started_at, false)]
                    else []))) ]
  else
    ret [ Defer;
          FollowupEmbed
            (mkEmbed "🎭 Scene Status" "No scene is currently active" Red []) ].

(** [f"• {scene}"] *)
Definition bullet (scene : string) : string := ("• " ++ scene)%string.

Definition newline : string := String (Ascii.ascii_of_nat 10) EmptyString.

(** The handler [list_scenes] of [add_scene_commands]. *)
Definition listscenes (dir : directory) : io (list response) :=
  scenes <~ list_scenes dir ;;
  ret [ Defer;
        FollowupEmbed
          (match scenes with
           | _ :: _ =>
               mkEmbed "📚 Available Scenes"
                 (String.concat newline (map bullet scenes)) Blue []
           | [] => mkEmbed "📚 Available Scenes" "No scenes found" Orange []
           end) ].

(** ** The polling loop *)

(** One pass of the [while] loop of [_scene_check_loop] that is not
    cancelled: the tick, then the three-second sleep; the handler logs and
    sleeps five seconds. *)
Definition _scene_check_iteration (p : participant) (store : scene_store)
    (now : string) : io unit :=
  try_except
    (_check_and_participate p store now ;;; py_sleep (JInt 3))
    (logger ERROR "Error in scene check loop for {self.bot_name}: {e}" ;;;
     py_sleep (JInt 5)).

(** The first [n] passes of the loop; [clock i] is the time of pass [i]. *)
Fixpoint _scene_check_loop (p : participant) (store : scene_store)
    (clock : nat -> string) (n : nat) : io unit :=
  match n with
  | O => ret tt
  | S m =>
      _scene_check_iteration p store (clock O) ;;;
      _scene_check_loop p store (fun i => clock (S i)) m
  end.

(** The monitoring switch of an engine.  [asyncio.create_task] numbers the
    tasks it creates; [cancelled] lists the tasks [cancel] was called on. *)
Record monitor : Type := mkMonitor {
  is_running : bool;
  check_task : option nat;
  tasks_created : nat;
  cancelled : list nat
}.

Definition new_monitor : monitor := mkMonitor false None 0 [].

Definition start_scene_monitoring (m : monitor) : monitor * list event :=
  if is_running m then
    (m, [Log WARNING "Scene monitoring already running for {self.bot_name}"])
  else
    (mkMonitor true (Some (tasks_created m)) (S (tasks_created m)) (cancelled m),
     [Log INFO "Started scene monitoring for {self.bot_name}"]).

Definition stop_scene_monitoring (m : monitor) : monitor * list event :=
  (match check_task m with
   | Some t => mkMonitor false (check_task m) (tasks_created m) (t :: cancelled m)
   | None => mkMonitor false None (tasks_created m) (cancelled m)
   end,
   [Log INFO "Stopped scene monitoring for {self.bot_name}"]).

Inductive monitor_call : Type := StartMonitoring | StopMonitoring.

Definition monitor_step (m : monitor) (c : monitor_call) : monitor :=
  match c with
  | StartMonitoring => fst (start_scene_monitoring m)
  | StopMonitoring => fst (stop_scene_monitoring m)
  end.

(** The polling tasks that were created and never cancelled. *)
Definition live_tasks (m : monitor) : list nat :=
  filter (fun t => negb (existsb (Nat.eqb t) (cancelled m))) (seq 0 (tasks_created m)).

(** ** Several participants *)

(** Every participant of the cast ticks once, in the order of the list. *)
Fixpoint poll_round (cast : list participant) (store : scene_store)
    (now : string) : io unit :=
  match cast with
  | [] => ret tt
  | p :: rest => _check_and_participate p store now ;;; poll_round rest store now
  end.

(** The state file after [n] rounds; [clock i] is the time of round [i]. *)
Fixpoint poll_rounds (cast : list participant) (store : scene_store)
    (clock : nat -> string) (n : nat) (f : file) : file :=
  match n with
  | O => f
  | S m =>
      poll_rounds cast store (fun i => clock (S i)) m
        (disk (poll_round cast store (clock O) f))
  end.

(** What a participant did to the outside: the events that are no log
    records. *)
Definition actions (tr : list event) : list event := filter is_action tr.

(** The wait of a node is one [asyncio.sleep] accepts: a float, a bool,
    or an integer below [float_limit]. *)
Definition wait_ok (nd : dict) : bool :=
  match dget_default "wait" (JInt 2) nd with
  | JInt z => negb (float_limit <=? z)%Z
  | JFloat _ | JBool _ => true
  | _ => false
  end.

Definition seconds_of (v : json) : Q :=
  match v with
  | JInt z => inject_Z z
  | JFloat q => q
  | JBool b => if b then 1%Q else 0%Q
  | _ => 0%Q
  end.

(** Every node is spoken by a member of the cast and has a usable wait. *)
Definition cast_node_ok (cast : list participant) (node_data : json) : bool :=
  match node_data with
  | JObj nd =>
      existsb (fun p => eq_str (dget "speaker" nd) (bot_name p)) cast
      && wait_ok nd
  | _ => false
  end.

Definition cast_ok (cast : list participant) (g : dict) : bool :=
  forallb (cast_node_ok cast) (values g).

(** The conditions under which a tick goes on to speak. *)
Definition my_turn (p : participant) (store : scene_store) (f : file) : Prop :=
  exists st s c g nd,
    f = Parsed (JObj st) /\ truthy (dget "scene_active" st) = true /\
    dget "next_speaker" st = JStr (bot_name p) /\
    dget "scene" st = JStr s /\ dget "current_node" st = JStr c /\ c <> "" /\
    graph_of store s = Some g /\ lookup c g = Some (JObj nd) /\ nd <> [] /\
    dget "speaker" nd = JStr (bot_name p).

(** The speaker the graph declares for a node. *)
Definition speaker_at (g : dict) (c : string) : json :=
  match lookup c g with
  | Some (JObj nd) => dget "speaker" nd
  | _ => JNull
  end.

(** An active record of scene [s] at node [c] that names the speaker of [c]. *)
Definition turn_state (g : dict) (s c : string) (f : file) : Prop :=
  exists st, f = Parsed (JObj st) /\ truthy (dget "scene_active" st) = true /\
             dget "scene" st = JStr s /\ dget "current_node" st = JStr c /\
             dget "next_speaker" st = speaker_at g c.

(** The active state names the speaker its current node declares. *)
Definition coherent (store : scene_store) (f : file) : Prop :=
  scene_active f = true ->
  exists s c g nd,
    field "scene" f = JStr s /\ field "current_node" f = JStr c /\
    graph_of store s = Some g /\ lookup c g = Some (JObj nd) /\
    field "next_speaker" f = dget "speaker" nd /\
    truthy (dget "speaker" nd) = true.

(** ** What validation accepts *)

Definition hashable (v : json) : bool :=
  match v with JList _ | JObj _ => false | _ => true end.

Definition choice_target_known (g : dict) (target : json) : bool :=
  match target with JStr t => has_key t g | _ => false end.

(** A node that adds nothing to the error list. *)
Definition node_valid (g : dict) (node_data : json) : bool :=
  match node_data with
  | JObj n =>
      has_key "speaker" n && hashable (dget "speaker" n) && has_key "text" n
      && match dget "next" n with
         | JStr t => has_key t g
         | JObj m => forallb (choice_target_known g) (values m)
         | _ => true
         end
  | _ => false
  end.

(** No two entries of a speaker list are equal as set elements. *)
Fixpoint distinct_speakers (l : list json) : bool :=
  match l with
  | [] => true
  | a :: rest => negb (existsb (hash_eq a) rest) && distinct_speakers rest
  end.

(** What validation does not look at and [advance_scene] needs. *)
Definition node_strict (node_data : json) : bool :=
  match node_data with
  | JObj n =>
      truthy (dget "speaker" n)
      && match dget "next" n with
         | JNull => true
         | JStr t => negb (String.eqb t "")
         | JObj m =>
             negb (Nat.eqb (List.length m) 0)
             && forallb (fun v => negb (eq_str v "")) (values m)
         | _ => false
         end
  | _ => false
  end.

(** ** Configuration

    Where the code counts the characters of a string ([len]), one [ascii]
    stands for one character. *)

Record config : Type := mkConfig {
  DISCORD_TOKEN_SWEET_PEEP : string;
  DISCORD_TOKEN_ORLIN : string;
  DISCORD_TOKEN_CLOUDBELLE : string;
  DISCORD_TOKEN_ELROI : string;
  WELCOME_CHANNEL_ID : Z;
  WEB_PORT : Z;
  BOT_PORT : Z
}.

(** The warnings [validate_config] prints. *)
Inductive config_warning : Type :=
| InvalidChannel
| WebPortOutside (port : Z)
| BotPortOutside (port : Z).

(** [token and not token.startswith('your_')] *)
Definition token_set (token : string) : bool :=
  negb (String.eqb token "") && negb (prefix_at "your_" token).

Definition bot_tokens (c : config) : list string :=
  [ DISCORD_TOKEN_SWEET_PEEP c; DISCORD_TOKEN_ORLIN c;
    DISCORD_TOKEN_CLOUDBELLE c; DISCORD_TOKEN_ELROI c ].

Definition port_in_range (port : Z) : bool :=
  (1024 <=? port)%Z && (port <=? 65535)%Z.

(** What [validate_config] prints and whether it raises [ValueError]. *)
Record config_report : Type := mkConfigReport {
  config_errors : list string;
  config_warnings : list config_warning;
  config_result : exc unit
}.

Definition validate_config (c : config) : config_report :=
  let valid_tokens := filter token_set (bot_tokens c) in
  let errors :=
    match valid_tokens with
    | [] => ["No valid Discord bot tokens found. At least one bot token is required."]
    | _ => []
    end in
  let warnings :=
    (if (WELCOME_CHANNEL_ID c <=? 0)%Z then [InvalidChannel] else [])
    ++ (if negb (port_in_range (WEB_PORT c)) then [WebPortOutside (WEB_PORT c)] else [])
    ++ (if negb (port_in_range (BOT_PORT c)) then [BotPortOutside (BOT_PORT c)] else []) in
  mkConfigReport errors warnings
    (match errors with [] => Ret tt | _ => Raise end).

Definition get_bot_tokens (c : config) : list (string * string) :=
  [ ("Sweet Peep", DISCORD_TOKEN_SWEET_PEEP c);
    ("Orlin", DISCORD_TOKEN_ORLIN c);
    ("CloudBelle", DISCORD_TOKEN_CLOUDBELLE c);
    ("El Roi", DISCORD_TOKEN_ELROI c) ].

Definition get_valid_bot_tokens (c : config) : list (string * string) :=
  filter (fun '(name, token) =>
            token_set token && Nat.ltb 10 (String.length token))
         (get_bot_tokens c).

(** ** Predicates of the later statements *)

(** The speaker set after a node that validation accepts. *)
Definition add_speaker (spk : list json) (node_data : json) : list json :=
  match node_data with
  | JObj n =>
      if existsb (hash_eq (dget "speaker" n)) spk then spk
      else spk ++ [dget "speaker" n]
  | _ => spk
  end.

(** The structure that validation accepts. *)
Definition graph_valid (g : dict) : bool :=
  has_key "start" g && forallb (node_valid g) (values g).

(** The keys [get_scene_status] copies from the record. *)
Definition status_keys : list string :=
  ["scene"; "current_node"; "next_speaker"; "started_at"; "ended_at"; "stopped_at"].

Definition started_message (scene_name : string) : json :=
  JStr ("🎭 Scene '" ++ scene_name ++ "' started! Let the dialogue begin!")%string.

Definition start_failed_message (scene_name : string) : json :=
  JStr ("❌ Failed to start scene '" ++ scene_name
        ++ "'. Check if the scene file exists and is valid.")%string.

(** The order [sorted] puts strings in. *)
Definition str_le (a b : string) : Prop := String.leb a b = true.

(** What every sequence of monitoring calls keeps true: a cancelled task
    was created; while running, the task held is the last one created and
    the only one not cancelled; otherwise every task created is cancelled. *)
Definition monitor_inv (m : monitor) : Prop :=
  (forall t, In t (cancelled m) -> t < tasks_created m)%nat /\
  if is_running m then
    exists t, check_task m = Some t /\ tasks_created m = S t /\
              (forall u, (u < t)%nat -> In u (cancelled m)) /\ ~ In t (cancelled m)
  else
    (forall u, (u < tasks_created m)%nat -> In u (cancelled m)) /\
    (forall t, check_task m = Some t -> (t < tasks_created m)%nat).

(** A tick without effect: nothing sent, no sleep, no call of
    [advance_scene], the state file as it was. *)
Definition silent_tick (p : participant) (store : scene_store) (now : string)
    (f : file) : Prop :=
  actions (trace (_check_and_participate p store now f)) = [] /\
  disk (_check_and_participate p store now f) = f.

(** ** Further sample data *)

(** A node whose [wait] is a string. *)
Definition badwait_graph : dict :=
  [ ("start", JObj [("speaker", JStr "A"); ("text", JStr "hi");
                    ("wait", JStr "2"); ("next", JStr "end")]);
    ("end", JObj [("speaker", JStr "B"); ("text", JStr "bye")]) ].

Definition extra_store : scene_store :=
  fun name =>
    if String.eqb name "badwait.json" then Parsed (JObj badwait_graph)
    else demo_store name.

Definition bot_A : participant := mkParticipant "A" (Channel true).
Definition bot_B : participant := mkParticipant "B" NoChannel.
Definition demo_cast : list participant := [bot_A; bot_B].

Definition sample_config : config :=
  mkConfig "MTIzNDU2Nzg5MDEyMzQ1Njc4.token" "your_token_here" "" "" 1286430360544219260 5000 8000.

Definition short_config : config :=
  mkConfig "abc" "your_token_here" "" "" 1286430360544219260 5000 8000.

(** * Properties *)

Open Scope nat_scope.


(** ** Dictionaries *)

Lemma lookup_dset_same k v d : lookup k (dset k v d) = Some v.
Proof.
  induction d as [|[k' v'] d IH]; simpl.
  - now rewrite String.eqb_refl.
  - destruct (String.eqb k' k) eqn:E; simpl; rewrite E; auto.
Qed.

Lemma lookup_dset_other k k' v d :
  k <> k' -> lookup k' (dset k v d) = lookup k' d.
Proof.
  intros Hne. induction d as [|[k0 v0] d IH]; simpl.
  - destruct (String.eqb k k') eqn:E; auto.
    apply String.eqb_eq in E. contradiction.
  - destruct (String.eqb k0 k) eqn:E; simpl.
    + apply String.eqb_eq in E. subst k0.
      destruct (String.eqb k k') eqn:E'; auto.
      apply String.eqb_eq in E'. contradiction.
    + now rewrite IH.
Qed.

Lemma dget_dset_same k v d : dget k (dset k v d) = v.
Proof. unfold dget. now rewrite lookup_dset_same. Qed.

Lemma dget_dset_other k k' v d : k <> k' -> dget k' (dset k v d) = dget k' d.
Proof. intros. unfold dget. now rewrite lookup_dset_other. Qed.

Lemma dset_same k v d : lookup k d = Some v -> dset k v d = d.
Proof.
  induction d as [|[k0 v0] d IH]; simpl; [discriminate|].
  destruct (String.eqb k0 k) eqn:E.
  - now intros [= ->].
  - intros H. now rewrite IH.
Qed.

Lemma dget_JObj_lookup k d x : dget k d = JObj x -> lookup k d = Some (JObj x).
Proof. unfold dget. destruct (lookup k d); [congruence|discriminate]. Qed.

Lemma lookup_dget k d x : lookup k d = Some x -> dget k d = x.
Proof. unfold dget. now intros ->. Qed.

Lemma lookup_has_key k d x : lookup k d = Some x -> has_key k d = true.
Proof. unfold has_key. now intros ->. Qed.

Lemma lookup_In k d x : lookup k d = Some x -> In x (values d).
Proof.
  induction d as [|[k0 v0] d IH]; simpl; [discriminate|].
  destruct (String.eqb k0 k).
  - intros [= ->]. now left.
  - intros H. right. auto.
Qed.

Lemma lookup_In_keys k d x : lookup k d = Some x -> In k (keys d).
Proof.
  induction d as [|[k0 v0] d IH]; simpl; [discriminate|].
  destruct (String.eqb k0 k) eqn:E.
  - apply String.eqb_eq in E. now left.
  - intros H. right. auto.
Qed.

Lemma is_none_true v : is_none v = true -> v = JNull.
Proof. destruct v; simpl; congruence. Qed.

Lemma truthy_not_none v : truthy v = true -> is_none v = false.
Proof. destruct v; simpl; congruence. Qed.

Lemma truthy_JStr s : truthy (JStr s) = true -> s <> "".
Proof. simpl. intros H ->. discriminate. Qed.

Lemma graph_of_parsed store s g :
  scene_file store s = Parsed (JObj g) -> graph_of store s = Some g.
Proof. unfold graph_of. now intros ->. Qed.

Lemma scene_active_parsed st :
  scene_active (Parsed (JObj st)) = truthy (dget "scene_active" st).
Proof. reflexivity. Qed.

Ltac dict_simpl :=
  repeat first
    [ rewrite dget_dset_same
    | rewrite dget_dset_other by discriminate ].

(** ** The outcomes of the coordinator's operations *)

Ltac io_norm :=
  cbv beta iota zeta delta
    [try_except iobind prepend load_scene_data load_scene_state logger
     ret lift raise save_scene_state result disk trace].

Ltac io_step :=
  cbn -[dget lookup has_key dset truthy dget_obj din_obj dgetitem_obj
        resolve_next String.eqb scene_file scene_active logged_error
        ended_state moved_state stopped_state initial_state].

Lemma start_scene_cases store now name node f :
  let r := start_scene store now name node f in
  (result r = Ret false /\ disk r = f) \/
  (exists g nd,
      graph_of store name = Some g /\ lookup node g = Some (JObj nd) /\
      truthy (dget "speaker" nd) = true /\
      result r = Ret true /\
      disk r = Parsed (initial_state name node (dget "speaker" nd) now)).
Proof.
  unfold start_scene, graph_of. io_norm.
  destruct (scene_file store name) as [| |j]; auto.
  destruct j as [|b|z|q|s|l|g]; cbn; auto.
  - destruct b; cbn; auto.
  - destruct (z =? 0)%Z; cbn; auto.
  - destruct (Qeq_bool q 0); cbn; auto.
  - destruct (String.eqb s ""); cbn; auto. destruct (substring_of node s); cbn; auto.
  - destruct l; cbn; auto. destruct (eq_str j node || existsb _ l); cbn; auto.
  - destruct g as [|e g']; cbn -[has_key lookup]; auto.
    set (g := e :: g'). unfold has_key.
    destruct (lookup node g) as [x|] eqn:El; cbn -[lookup]; auto.
    destruct x as [| | | | | |nd]; cbn -[lookup]; auto.
    destruct (truthy (dget "speaker" nd)) eqn:Hs; cbn -[lookup]; auto.
    right. exists g, nd. auto.
Qed.

Lemma start_scene_succeeds store now name node f g nd :
  graph_of store name = Some g -> lookup node g = Some (JObj nd) ->
  truthy (dget "speaker" nd) = true ->
  let r := start_scene store now name node f in
  result r = Ret true /\
  disk r = Parsed (initial_state name node (dget "speaker" nd) now).
Proof.
  unfold graph_of, start_scene. intros Hg Hn Hs. io_norm.
  destruct (scene_file store name) as [| |[| | | | | |g0]]; try discriminate.
  injection Hg as ->.
  destruct g as [|e g']; [discriminate|].
  cbn -[has_key lookup]. set (g := e :: g') in *.
  unfold has_key. rewrite Hn. cbn -[lookup]. rewrite Hs. cbn. auto.
Qed.

Lemma advance_scene_paths store now f :
  advance_path store now f (advance_scene store now f).
Proof.
  unfold advance_scene. io_norm.
  destruct f as [| |j]; cbn; try (apply path_idle; reflexivity).
  destruct (truthy j) eqn:Htj; io_step.
  2:{ apply path_idle; auto. destruct j; try reflexivity.
      destruct d; [reflexivity|discriminate]. }
  destruct j as [| | | | | |st]; io_step; try (apply path_idle; reflexivity).
  rewrite <- scene_active_parsed.
  destruct (scene_active (Parsed (JObj st))) eqn:Hact; io_step;
    [| apply path_idle; auto].
  pose proof Hact as Hact'. rewrite scene_active_parsed in Hact'.
  destruct (truthy (dget "scene" st)) eqn:Hsc; io_step;
    [| apply path_failed; auto].
  destruct (truthy (dget "current_node" st)) eqn:Hcn; io_step;
    [| apply path_failed; auto].
  destruct (dget "scene" st) as [| | | |s| |] eqn:Es; io_step;
    try (apply path_failed; auto; fail).
  destruct (scene_file store s) as [| |gj] eqn:Ef; io_step;
    try (apply path_failed; auto; fail).
  destruct (truthy gj) eqn:Hg; io_step; [| apply path_failed; auto].
  destruct gj as [| | | | | |g]; io_step; try (apply path_failed; auto; fail).
  destruct (dget "current_node" st) as [| | | |c| |] eqn:Ec; io_step;
    try (apply path_failed; auto; fail).
  cbn [dget_obj]. io_step.
  destruct (truthy (dget c g)) eqn:Hnd; io_step; [| apply path_failed; auto].
  destruct (dget c g) as [| | | | | |nd] eqn:End; io_step;
    try (apply path_failed; auto; fail).
  apply dget_JObj_lookup in End. apply graph_of_parsed in Ef.
  destruct (is_none (dget "next" nd)) eqn:Hnone; io_step.
  { apply is_none_true in Hnone.
    eapply path_ended; eauto. }
  destruct (resolve_next (dget "next" nd)) as [nn|] eqn:Er; io_step;
    [| apply path_failed; auto].
  destruct (truthy nn) eqn:Hnn; io_step; [| apply path_failed; auto].
  destruct nn as [| | | |t| |]; cbn [din_obj dgetitem_obj]; io_step;
    try (apply path_failed; auto; fail).
  unfold has_key.
  destruct (lookup t g) as [x|] eqn:Et; io_step; [| apply path_failed; auto].
  destruct x as [| | | | | |tn]; io_step; try (apply path_failed; auto; fail).
  destruct (truthy (dget "speaker" tn)) eqn:Hsp; io_step;
    [| apply path_failed; auto].
  eapply path_moved; eauto using truthy_JStr.
Qed.

Lemma stop_scene_cases now f :
  let r := stop_scene now f in
  (truthy (load_scene_state_value f) = false /\ result r = Ret true /\ disk r = f) \/
  (exists st, f = Parsed (JObj st) /\ st <> [] /\ result r = Ret true /\
              disk r = Parsed (JObj (stopped_state now st))) \/
  (truthy (load_scene_state_value f) = true /\ is_record f = false /\
   result r = Ret false /\ disk r = f).
Proof.
  unfold stop_scene. io_norm.
  destruct f as [| |j]; cbn; auto.
  destruct j as [|b|z|q|s|l|st]; cbn; auto.
  - destruct b; cbn; auto 7.
  - destruct (z =? 0)%Z; cbn; auto 7.
  - destruct (Qeq_bool q 0); cbn; auto 7.
  - destruct (String.eqb s ""); cbn; auto 7.
  - destruct l; cbn; auto 7.
  - destruct st as [|e st']; cbn -[dset]; auto.
    right; left. exists (e :: st'). repeat split; congruence.
Qed.

(** ** The state invariant *)

Lemma state_inv_initial store name node sp now g x :
  graph_of store name = Some g -> lookup node g = Some x ->
  truthy sp = true ->
  state_inv store (Parsed (initial_state name node sp now)) = true.
Proof.
  intros Hg Hn Hs. unfold state_inv, scene_active, field. cbn.
  rewrite Hg, (lookup_has_key _ _ _ Hn), (truthy_not_none _ Hs). reflexivity.
Qed.

Lemma state_inv_ended store now st :
  state_inv store (Parsed (JObj (ended_state now st))) = true.
Proof.
  unfold state_inv, scene_active, field, ended_state. cbn [load_scene_state_value].
  dict_simpl. reflexivity.
Qed.

Lemma state_inv_stopped store now st :
  state_inv store (Parsed (JObj (stopped_state now st))) = true.
Proof.
  unfold state_inv, scene_active, field, stopped_state. cbn [load_scene_state_value].
  dict_simpl. reflexivity.
Qed.

Lemma state_inv_moved store st s g t x sp :
  truthy (dget "scene_active" st) = true -> dget "scene" st = JStr s ->
  graph_of store s = Some g -> lookup t g = Some x -> truthy sp = true ->
  state_inv store (Parsed (JObj (moved_state (JStr t) sp st))) = true.
Proof.
  intros Ha Hs Hg Ht Hsp.
  unfold state_inv, scene_active, field, moved_state. cbn [load_scene_state_value].
  dict_simpl. rewrite Ha, Hs, Hg, (lookup_has_key _ _ _ Ht), (truthy_not_none _ Hsp).
  reflexivity.
Qed.

Lemma start_scene_keeps_inv store now name node f :
  state_inv store f = true ->
  state_inv store (disk (start_scene store now name node f)) = true.
Proof.
  intros Hinv.
  destruct (start_scene_cases store now name node f)
    as [[_ ->]|(g & nd & Hg & Hn & Hs & _ & ->)]; auto.
  eapply state_inv_initial; eauto.
Qed.

Lemma advance_scene_keeps_inv store now f :
  state_inv store f = true ->
  state_inv store (disk (advance_scene store now f)) = true.
Proof.
  intros Hinv.
  destruct (advance_scene_paths store now f) as
    [_ _ ->|_ _ _ ->|st s c g nd _ _ _ _ _ _ _ _ _ ->
    |st s c g nd t tn _ Ha Hs _ Hg _ _ _ Ht Hsp _ _ ->]; auto.
  - apply state_inv_ended.
  - eapply state_inv_moved; eauto.
Qed.

Lemma stop_scene_keeps_inv store now f :
  state_inv store f = true ->
  state_inv store (disk (stop_scene now f)) = true.
Proof.
  intros Hinv.
  destruct (stop_scene_cases now f)
    as [(_ & _ & ->)|[(st & _ & _ & _ & ->)|(_ & _ & _ & ->)]]; auto.
  apply state_inv_stopped.
Qed.

Lemma advance_times_keeps_inv store n : forall clock f,
  state_inv store f = true ->
  state_inv store (advance_times store clock n f) = true.
Proof.
  induction n as [|n IH]; intros clock f Hinv; simpl; auto.
  apply IH. now apply advance_scene_keeps_inv.
Qed.

(** ** One call of [advance_scene] at a node *)

Lemma graph_of_inv store s g :
  graph_of store s = Some g -> scene_file store s = Parsed (JObj g) /\ s <> "".
Proof.
  unfold graph_of. intros H. split.
  - destruct (scene_file store s) as [| |[| | | | | |g0]]; congruence.
  - intros ->. discriminate.
Qed.

Lemma truthy_dget_nonempty k d : truthy (dget k d) = true -> truthy (JObj d) = true.
Proof. destruct d; [discriminate|reflexivity]. Qed.

Lemma lookup_nonempty k d x : lookup k d = Some x -> truthy (JObj d) = true.
Proof. destruct d; [discriminate|reflexivity]. Qed.

Lemma string_eqb_empty_false s : s <> "" -> String.eqb s "" = false.
Proof. intros H. now apply String.eqb_neq. Qed.

Lemma truthy_nonempty d : d <> [] -> truthy (JObj d) = true.
Proof. destruct d; [congruence|reflexivity]. Qed.

Lemma truthy_dget_dict k d : truthy (dget k d) = true -> d <> [].
Proof. intros H ->. discriminate. Qed.

Lemma resolve_next_some v x : resolve_next v = Some x -> is_none v = false.
Proof. destruct v; simpl; congruence. Qed.

Section AtNode.
Variables (store : scene_store) (now : string) (st : dict) (s c : string)
          (g nd : dict).
Hypothesis Hact : truthy (dget "scene_active" st) = true.
Hypothesis Hscene : dget "scene" st = JStr s.
Hypothesis Hcur : dget "current_node" st = JStr c.
Hypothesis Hc : c <> "".
Hypothesis Hg : graph_of store s = Some g.
Hypothesis Hnode : lookup c g = Some (JObj nd).
Hypothesis Hnd : nd <> [].

Ltac to_node :=
  let Hf := fresh "Hf" in
  let Hs := fresh "Hs" in
  destruct (graph_of_inv _ _ _ Hg) as [Hf Hs];
  unfold advance_scene; io_norm;
  cbn [load_scene_state_value];
  rewrite (truthy_dget_nonempty _ _ Hact); io_step;
  rewrite Hact; io_step; rewrite Hscene, Hcur; io_step;
  cbn [truthy];
  rewrite (string_eqb_empty_false _ Hs), (string_eqb_empty_false _ Hc);
  io_step; rewrite Hf; io_step;
  rewrite (lookup_nonempty _ _ _ Hnode); io_step; cbn [dget_obj]; io_step;
  rewrite (lookup_dget _ _ _ Hnode), (truthy_nonempty _ Hnd); io_step;
  cbn [py_get]; io_step.

Lemma advance_scene_ends :
  dget "next" nd = JNull ->
  let r := advance_scene store now (Parsed (JObj st)) in
  result r = Ret JNull /\ disk r = Parsed (JObj (ended_state now st)).
Proof.
  intros Hnext. to_node. rewrite Hnext. io_step. cbn [py_setitem]. io_step.
  auto.
Qed.

Lemma advance_scene_moves t tn :
  resolve_next (dget "next" nd) = Some (JStr t) -> t <> "" ->
  lookup t g = Some (JObj tn) -> truthy (dget "speaker" tn) = true ->
  let r := advance_scene store now (Parsed (JObj st)) in
  result r = Ret (JObj tn) /\
  disk r = Parsed (JObj (moved_state (JStr t) (dget "speaker" tn) st)).
Proof.
  intros Hres Ht Htn Hsp. to_node.
  rewrite (resolve_next_some _ _ Hres), Hres. io_step.
  cbn [truthy]. rewrite (string_eqb_empty_false _ Ht). io_step.
  cbn [din_obj dgetitem_obj]. unfold has_key. rewrite Htn. io_step.
  cbn [py_get]. io_step. rewrite Hsp. io_step. cbn [py_setitem]. io_step.
  auto.
Qed.
End AtNode.

(** ** Walking a well-formed graph *)

Lemma has_key_lookup k d : has_key k d = true -> exists x, lookup k d = Some x.
Proof. unfold has_key. destruct (lookup k d); [eauto|discriminate]. Qed.

Lemma well_formed_node g c x :
  well_formed g = true -> lookup c g = Some x -> node_ok g x = true.
Proof.
  unfold well_formed. intros H Hl. apply andb_prop in H as [_ H].
  rewrite forallb_forall in H. apply H. eapply lookup_In; eauto.
Qed.

Lemma target_ok_inv g v :
  target_ok g v = true -> exists t, v = JStr t /\ t <> "" /\ has_key t g = true.
Proof.
  destruct v; simpl; try discriminate. intros H.
  apply andb_prop in H as [H1 H2]. exists s. repeat split; auto.
  intros ->. discriminate.
Qed.

Lemma node_ok_inv g x :
  node_ok g x = true ->
  exists nd, x = JObj nd /\ nd <> [] /\ truthy (dget "speaker" nd) = true.
Proof.
  destruct x; simpl; try discriminate. intros H.
  apply andb_prop in H as [H _]. exists d. repeat split; auto.
  intros ->. discriminate.
Qed.

(** A well-formed node is terminal or hands over to a node of the graph. *)
Lemma node_ok_next g nd :
  node_ok g (JObj nd) = true ->
  dget "next" nd = JNull \/
  exists t, resolve_next (dget "next" nd) = Some (JStr t) /\
            In (JStr t) (targets (JObj nd)) /\ t <> "" /\ has_key t g = true.
Proof.
  unfold node_ok. intros H. apply andb_prop in H as [_ H].
  destruct (dget "next" nd) as [| | | |t| |m] eqn:En; try discriminate; auto.
  - right. destruct (target_ok_inv _ _ H) as (t' & [= <-] & Ht & Hk).
    exists t. unfold targets. rewrite En. simpl. auto.
  - right. apply andb_prop in H as [Hm H]. rewrite forallb_forall in H.
    assert (Hsel : exists v, resolve_next (JObj m) = Some v /\ In v (values m)).
    { simpl. unfold has_key, dget.
      destruct (lookup "continue" m) as [v|] eqn:Ec.
      - exists v. split; auto. eapply lookup_In; eauto.
      - destruct m as [|[k v] m']; [discriminate|].
        exists v. simpl. auto. }
    destruct Hsel as (v & Hr & Hin).
    destruct (target_ok_inv _ _ (H _ Hin)) as (t & -> & Ht & Hk).
    exists t. unfold targets. rewrite En. auto.
Qed.

Lemma advance_step store now g s c f :
  well_formed g = true -> graph_of store s = Some g ->
  at_node s c f -> c <> "" -> has_key c g = true ->
  let f' := disk (advance_scene store now f) in
  scene_active f' = false \/
  exists t, edge g c t /\ t <> "" /\ has_key t g = true /\ at_node s t f'.
Proof.
  intros Hwf Hg (st & -> & Ha & Hs & Hc) Hne Hk.
  destruct (has_key_lookup _ _ Hk) as (x & Hx).
  destruct (node_ok_inv _ _ (well_formed_node _ _ _ Hwf Hx))
    as (nd & -> & Hnd & _).
  destruct (node_ok_next _ _ (well_formed_node _ _ _ Hwf Hx))
    as [Hnext|(t & Hres & Hin & Ht & Hkt)].
  - left.
    destruct (advance_scene_ends store now st s c g nd Ha Hs Hc Hne Hg Hx Hnd Hnext)
      as [_ Hd].
    cbv zeta. rewrite Hd. rewrite scene_active_parsed. unfold ended_state.
    dict_simpl. reflexivity.
  - right. exists t.
    destruct (has_key_lookup _ _ Hkt) as (y & Hy).
    destruct (node_ok_inv _ _ (well_formed_node _ _ _ Hwf Hy))
      as (tn & -> & _ & Hsp).
    destruct (advance_scene_moves store now st s c g nd Ha Hs Hc Hne Hg Hx Hnd
                t tn Hres Ht Hy Hsp) as [_ Hd].
    cbv zeta. rewrite Hd. repeat split; auto.
    + exists (JObj nd). auto.
    + eexists. split; [reflexivity|]. unfold moved_state. dict_simpl. auto.
Qed.

Lemma keys_length (g : dict) : length (keys g) = length g.
Proof. unfold keys. apply length_map. Qed.

(** The nodes already left are distinct and all reach the current node, so
    in an acyclic graph the walk cannot come back to any of them: at most
    as many calls remain as there are nodes not yet left. *)
Lemma advance_bound store g s :
  well_formed g = true -> graph_of store s = Some g -> acyclic g ->
  forall n vis c f clock,
    at_node s c f -> c <> "" -> has_key c g = true ->
    NoDup vis -> incl vis (keys g) -> ~ In c vis ->
    (forall v, In v vis -> clos_trans string (edge g) v c) ->
    length g - length vis <= n ->
    exists k, 1 <= k <= length g - length vis /\
              scene_active (advance_times store clock k f) = false.
Proof.
  intros Hwf Hg Hacyc.
  induction n as [|n IH]; intros vis c f clock Hat Hc Hk Hnd Hincl Hnin Hreach Hn.
  all: assert (Hlen : S (length vis) <= length g).
  all: try (rewrite <- keys_length;
            apply (NoDup_incl_length (l := c :: vis));
            [ constructor; auto
            | intros x [<-|Hx]; auto;
              destruct (has_key_lookup _ _ Hk) as (y & Hy);
              eapply lookup_In_keys; eauto ]).
  - lia.
  - destruct (advance_step store (clock 0) g s c f Hwf Hg Hat Hc Hk)
      as [Hend|(t & Hedge & Ht & Hkt & Hat')].
    + exists 1. split; [lia|]. exact Hend.
    + assert (Hfresh : ~ In t (c :: vis)).
      { intros [<-|Hin].
        - apply (Hacyc c). now apply t_step.
        - apply (Hacyc t). eapply t_trans; [apply Hreach; eauto|].
          now apply t_step. }
      destruct (IH (c :: vis) t (disk (advance_scene store (clock 0) f))
                  (fun i => clock (S i)) Hat' Ht Hkt) as (k & Hk' & Hfin).
      * constructor; auto.
      * intros x [<-|Hx]; auto.
        destruct (has_key_lookup _ _ Hk) as (y & Hy).
        eapply lookup_In_keys; eauto.
      * exact Hfresh.
      * intros v [<-|Hv]; [now apply t_step|].
        eapply t_trans; [apply Hreach; eauto|]. now apply t_step.
      * simpl. lia.
      * exists (S k). split; [simpl in Hk'; lia|]. exact Hfin.
Qed.

(** Once the scene is over, further calls change nothing. *)
Lemma advance_idle_keeps_disk store now f :
  scene_active f = false -> disk (advance_scene store now f) = f.
Proof.
  intros Hidle.
  destruct (advance_scene_paths store now f) as
    [_ _ H|Ha _ _ _|st s c g nd -> Ha _ _ _ _ _ _ _ _
    |st s c g nd t tn -> Ha _ _ _ _ _ _ _ _ _ _ _]; auto.
  - congruence.
  - rewrite scene_active_parsed in Hidle. congruence.
  - rewrite scene_active_parsed in Hidle. congruence.
Qed.

Lemma advance_times_idle store n : forall clock f,
  scene_active f = false -> advance_times store clock n f = f.
Proof.
  induction n as [|n IH]; intros clock f Hidle; simpl; auto.
  rewrite (advance_idle_keeps_disk _ _ _ Hidle). now apply IH.
Qed.

Lemma advance_times_add store k : forall m clock f,
  advance_times store clock (k + m) f =
  advance_times store (fun i => clock (k + i)) m (advance_times store clock k f).
Proof.
  induction k as [|k IH]; intros m clock f; simpl; [reflexivity|apply IH].
Qed.

(** ** Stopping twice *)

Lemma scene_active_stopped now st :
  scene_active (Parsed (JObj (stopped_state now st))) = false.
Proof.
  rewrite scene_active_parsed. unfold stopped_state. dict_simpl. reflexivity.
Qed.

Lemma stopped_state_nonempty now st : stopped_state now st <> [].
Proof.
  unfold stopped_state. intros H.
  assert (E : lookup "stopped_at" (dset "stopped_at" (JStr now)
            (dset "next_speaker" JNull (dset "current_node" JNull
               (dset "scene_active" (JBool false) st)))) = Some (JStr now))
    by apply lookup_dset_same.
  rewrite H in E. discriminate.
Qed.

Lemma stopped_state_again now st :
  stopped_state now (stopped_state now st) = stopped_state now st.
Proof.
  unfold stopped_state at 1.
  set (d := stopped_state now st).
  assert (H1 : lookup "scene_active" d = Some (JBool false)).
  { unfold d, stopped_state.
    rewrite !lookup_dset_other by discriminate. apply lookup_dset_same. }
  assert (H2 : lookup "current_node" d = Some JNull).
  { unfold d, stopped_state.
    rewrite !lookup_dset_other by discriminate. apply lookup_dset_same. }
  assert (H3 : lookup "next_speaker" d = Some JNull).
  { unfold d, stopped_state.
    rewrite !lookup_dset_other by discriminate. apply lookup_dset_same. }
  assert (H4 : lookup "stopped_at" d = Some (JStr now)).
  { unfold d, stopped_state. apply lookup_dset_same. }
  rewrite (dset_same _ _ _ H1), (dset_same _ _ _ H2), (dset_same _ _ _ H3).
  now rewrite (dset_same _ _ _ H4).
Qed.

Lemma stop_scene_on_record now st :
  st <> [] ->
  result (stop_scene now (Parsed (JObj st))) = Ret true /\
  disk (stop_scene now (Parsed (JObj st))) = Parsed (JObj (stopped_state now st)).
Proof.
  intros Hst.
  destruct (stop_scene_cases now (Parsed (JObj st)))
    as [(Hf & _)|[(st' & [= <-] & _ & Hr & Hd)|(_ & Hrec & _)]]; auto.
  - destruct st; [congruence|discriminate].
  - discriminate.
Qed.

Lemma stop_scene_on_nothing now f :
  truthy (load_scene_state_value f) = false ->
  result (stop_scene now f) = Ret true /\ disk (stop_scene now f) = f.
Proof.
  intros Hf.
  destruct (stop_scene_cases now f)
    as [(_ & Hr & Hd)|[(st & -> & Hst & _)|(Ht & _)]]; auto.
  - destruct st; [congruence|discriminate].
  - congruence.
Qed.

(** ** The participant's tick *)

Lemma eq_str_refl s : eq_str (JStr s) s = true.
Proof. simpl. apply String.eqb_refl. Qed.

Lemma no_action_in_logs (tr : list event) :
  existsb is_action tr = false ->
  (forall m, ~ In (Send m) tr) /\ ~ In Advance tr.
Proof.
  intros H. split; [intros m Hin|intros Hin];
    (assert (Hex : existsb is_action tr = true)
       by (apply existsb_exists; eexists; split; [exact Hin|reflexivity]));
    congruence.
Qed.

Lemma resolve_next_spec_choice m v :
  spec_choice m = Some v -> resolve_next (JObj m) = Some v.
Proof.
  unfold spec_choice, resolve_next, has_key, dget.
  destruct (lookup "continue" m); [auto|].
  destruct m as [|[k x] m']; [discriminate|auto].
Qed.

(** ** Runs of [advance_scene] from the start node *)

Lemma at_node_active s c f : at_node s c f -> scene_active f = true.
Proof. intros (st & -> & Ha & _). now rewrite scene_active_parsed. Qed.

Lemma at_node_initial name node sp now :
  at_node name node (Parsed (initial_state name node sp now)).
Proof. eexists. split; [reflexivity|]. cbn. auto. Qed.

Lemma well_formed_start store name g now f :
  graph_of store name = Some g -> well_formed g = true ->
  result (start_scene store now name "start" f) = Ret true /\
  at_node name "start" (disk (start_scene store now name "start" f)) /\
  state_inv store (disk (start_scene store now name "start" f)) = true /\
  has_key "start" g = true.
Proof.
  intros Hg Hwf.
  assert (Hk : has_key "start" g = true).
  { unfold well_formed in Hwf. now apply andb_prop in Hwf as [Hk _]. }
  destruct (has_key_lookup _ _ Hk) as (x & Hx).
  destruct (node_ok_inv _ _ (well_formed_node _ _ _ Hwf Hx)) as (nd & -> & _ & Hsp).
  destruct (start_scene_succeeds store now name "start" f g nd Hg Hx Hsp) as [Hr Hd].
  rewrite Hr, Hd. repeat split; auto.
  - apply at_node_initial.
  - eapply state_inv_initial; eauto.
Qed.

(** In a graph without terminal node the scene never ends. *)
Lemma advance_never_ends store g s :
  well_formed g = true -> graph_of store s = Some g ->
  (forall a nd, lookup a g = Some (JObj nd) -> dget "next" nd <> JNull) ->
  forall n clock c f,
    at_node s c f -> c <> "" -> has_key c g = true ->
    scene_active (advance_times store clock n f) = true.
Proof.
  intros Hwf Hg Hnt.
  induction n as [|n IH]; intros clock c f Hat Hc Hk; simpl.
  - eapply at_node_active; eauto.
  - destruct Hat as (st & -> & Ha & Hs & Hcur).
    destruct (has_key_lookup _ _ Hk) as (x & Hx).
    destruct (node_ok_inv _ _ (well_formed_node _ _ _ Hwf Hx))
      as (nd & -> & Hnd & _).
    destruct (node_ok_next _ _ (well_formed_node _ _ _ Hwf Hx))
      as [Hnext|(t & Hres & Hin & Ht & Hkt)].
    + exfalso. eapply Hnt; eauto.
    + destruct (has_key_lookup _ _ Hkt) as (y & Hy).
      destruct (node_ok_inv _ _ (well_formed_node _ _ _ Hwf Hy))
        as (tn & -> & _ & Hsp).
      destruct (advance_scene_moves store (clock 0) st s c g nd Ha Hs Hcur Hc Hg
                  Hx Hnd t tn Hres Ht Hy Hsp) as [_ Hd].
      rewrite Hd. apply (IH _ t); auto.
      eexists. split; [reflexivity|]. unfold moved_state. dict_simpl. auto.
Qed.

Lemma acyclic_by_rank g (rank : string -> nat) :
  (forall a b, edge g a b -> rank b < rank a) -> acyclic g.
Proof.
  intros Hrank a Hcyc.
  assert (H : forall x y, clos_trans string (edge g) x y -> rank y < rank x).
  { intros x y Hxy. induction Hxy as [x y He|x y z _ IH1 _ IH2]; [auto|lia]. }
  specialize (H a a Hcyc). lia.
Qed.

Lemma demo_graph_acyclic : acyclic demo_graph.
Proof.
  apply (acyclic_by_rank _ (fun s => if String.eqb "start" s then 1 else 0)).
  intros a b (nd & Hl & Hin). unfold demo_graph in Hl. cbn [lookup] in Hl.
  destruct (String.eqb "start" a) eqn:Ea.
  - injection Hl as <-. simpl in Hin. destruct Hin as [[= <-]|[]].
    try rewrite Ea. simpl. lia.
  - destruct (String.eqb "end" a); [|discriminate].
    injection Hl as <-. simpl in Hin. contradiction.
Qed.

Lemma stuck_graph_acyclic : acyclic stuck_graph.
Proof.
  apply (acyclic_by_rank _ (fun _ => 0)).
  intros a b (nd & Hl & Hin). unfold stuck_graph in Hl. cbn [lookup] in Hl.
  destruct (String.eqb "start" a); [|discriminate].
  injection Hl as <-. simpl in Hin. contradiction.
Qed.

Lemma loop_graph_no_terminal a nd :
  lookup a loop_graph = Some (JObj nd) -> dget "next" nd <> JNull.
Proof.
  unfold loop_graph. cbn [lookup].
  destruct (String.eqb "start" a); [|discriminate].
  intros [= <-]. discriminate.
Qed.

Lemma stuck_state_fixed now :
  disk (advance_scene demo_store now (state_at "stuck.json" "start" (JStr "A")))
  = state_at "stuck.json" "start" (JStr "A").
Proof. reflexivity. Qed.

(** An empty speaker passes validation as well, and stops the scene at the
    node before it. *)
Lemma mute_scene_never_ends :
  (exists v, result (validate_scene demo_store "mute.json" Missing) = Ret v /\
             valid v = true /\ errors v = []) /\
  result (start_scene demo_store "2024-01-01T00:00:00" "mute.json" "start" Missing)
    = Ret true /\
  forall n clock,
    scene_active (advance_times demo_store clock n
      (disk (start_scene demo_store "2024-01-01T00:00:00" "mute.json" "start" Missing)))
    = true.
Proof.
  split; [eexists; repeat split; reflexivity|]. split; [reflexivity|].
  change (disk (start_scene demo_store "2024-01-01T00:00:00" "mute.json" "start" Missing))
    with (state_at "mute.json" "start" (JStr "A")).
  assert (Hfix : forall now,
             disk (advance_scene demo_store now (state_at "mute.json" "start" (JStr "A")))
             = state_at "mute.json" "start" (JStr "A")) by reflexivity.
  induction n as [|n IH]; intros clock; cbn [advance_times]; [reflexivity|].
  rewrite Hfix. apply IH.
Qed.

(** * The claims *)

(** C1: when the state is active and names the participant as next speaker
    but the current node of the scene graph declares another speaker, the
    tick sends no message, does not call [advance_scene], and leaves the
    state file as it was. *)
Theorem participant_skips_on_speaker_mismatch
    (p : participant) (store : scene_store) (now : string)
    (st : dict) (s c : string) (g nd : dict) :
  truthy (dget "scene_active" st) = true ->
  dget "next_speaker" st = JStr (bot_name p) ->
  dget "scene" st = JStr s -> dget "current_node" st = JStr c ->
  graph_of store s = Some g -> lookup c g = Some (JObj nd) ->
  eq_str (dget "speaker" nd) (bot_name p) = false ->
  let r := _check_and_participate p store now (Parsed (JObj st)) in
  (forall m, ~ In (Send m) (trace r)) /\ ~ In Advance (trace r) /\
  disk r = Parsed (JObj st).
Proof.
  intros Hact Hturn Hscene Hcur Hg Hnode Hsp r.
  assert (H : existsb is_action (trace r) = false /\ disk r = Parsed (JObj st)).
  { subst r. destruct (graph_of_inv _ _ _ Hg) as [Hf Hs].
    unfold _check_and_participate, _perform_dialogue_turn. io_norm.
    cbn [load_scene_state_value].
    rewrite (truthy_dget_nonempty _ _ Hact). io_step.
    rewrite Hact. io_step. rewrite Hturn, eq_str_refl. io_step.
    rewrite Hscene, Hcur. io_step. cbn [truthy].
    rewrite (string_eqb_empty_false _ Hs). io_step.
    destruct (String.eqb c "") eqn:Ec; io_step; [auto|].
    rewrite Hf. io_step.
    rewrite (lookup_nonempty _ _ _ Hnode). io_step. cbn [dget_obj]. io_step.
    rewrite (lookup_dget _ _ _ Hnode).
    destruct (truthy (JObj nd)) eqn:End; io_step; [|auto].
    cbn [py_get]. io_step. rewrite Hsp. io_step. auto. }
  destruct H as [Hno Hd].
  destruct (no_action_in_logs _ Hno) as [H1 H2]. auto.
Qed.

Lemma participant_skips_on_speaker_mismatch_witness :
  let p := mkParticipant "B" (Channel true) in
  let st := [ ("scene", JStr "demo.json"); ("current_node", JStr "start");
              ("next_speaker", JStr "B"); ("waiting_for_choice", JBool false);
              ("started_at", JStr "t0"); ("scene_active", JBool true) ] in
  let r := _check_and_participate p demo_store "t1" (Parsed (JObj st)) in
  (forall m, ~ In (Send m) (trace r)) /\ ~ In Advance (trace r) /\
  disk r = Parsed (JObj st).
Proof.
  intros p st.
  apply (participant_skips_on_speaker_mismatch p demo_store "t1" st
           "demo.json" "start" demo_graph
           [("speaker", JStr "A"); ("text", JStr "hi"); ("next", JStr "end")]);
    reflexivity.
Defined.

(** C2: [start_scene], [advance_scene] and [stop_scene] each preserve the
    state invariant [state_inv]. *)
Theorem coordinator_keeps_state_invariant (store : scene_store) (now name node : string) (f : file) :
  state_inv store f = true ->
  state_inv store (disk (start_scene store now name node f)) = true /\
  state_inv store (disk (advance_scene store now f)) = true /\
  state_inv store (disk (stop_scene now f)) = true.
Proof.
  intros Hinv. repeat split.
  - now apply start_scene_keeps_inv.
  - now apply advance_scene_keeps_inv.
  - now apply stop_scene_keeps_inv.
Qed.

Lemma coordinator_keeps_state_invariant_witness :
  let f := state_at "demo.json" "start" (JStr "A") in
  state_inv demo_store f = true /\
  (state_inv demo_store (disk (start_scene demo_store "t" "choice.json" "start" f)) = true /\
   state_inv demo_store (disk (advance_scene demo_store "t" f)) = true /\
   state_inv demo_store (disk (stop_scene "t" f)) = true).
Proof.
  intros f. split; [reflexivity|].
  apply (coordinator_keeps_state_invariant demo_store "t" "choice.json" "start" f).
  reflexivity.
Defined.

(** C3: a [start_scene] that returns [False], and an [advance_scene] that
    logs an error, leave the state file exactly as it was. *)
Theorem failed_transition_keeps_state (store : scene_store) (now : string) (f : file) :
  (forall name node,
      result (start_scene store now name node f) = Ret false ->
      disk (start_scene store now name node f) = f) /\
  (logged_error (trace (advance_scene store now f)) = true ->
   disk (advance_scene store now f) = f).
Proof.
  split.
  - intros name node Hfail.
    destruct (start_scene_cases store now name node f)
      as [[_ Hd]|(g & nd & _ & _ & _ & Hr & _)]; [exact Hd|congruence].
  - intros Herr.
    destruct (advance_scene_paths store now f) as
      [_ _ H|_ _ _ H|st s c g nd _ _ _ _ _ _ _ Hlog _ _
      |st s c g nd t tn _ _ _ _ _ _ _ _ _ _ Hlog _ _]; auto; congruence.
Qed.

Lemma failed_transition_keeps_state_witness :
  let f := state_at "demo.json" "ghost" (JStr "A") in
  (result (start_scene demo_store "t" "demo.json" "nowhere" f) = Ret false /\
   disk (start_scene demo_store "t" "demo.json" "nowhere" f) = f) /\
  (logged_error (trace (advance_scene demo_store "t" f)) = true /\
   disk (advance_scene demo_store "t" f) = f).
Proof.
  intros f.
  destruct (failed_transition_keeps_state demo_store "t" f) as [Hs Ha].
  split; (split; [reflexivity|]).
  - apply Hs. reflexivity.
  - apply Ha. reflexivity.
Defined.



(** C5: a [start_scene] that returns [True] replaces the state file,
    whatever it held, by the fresh record of the scene at its starting
    node; the status read next shows no [ended_at] and no [stopped_at]. *)
Theorem start_scene_overwrites_state (store : scene_store) (now name node : string) (f : file) :
  result (start_scene store now name node f) = Ret true ->
  exists g nd,
    graph_of store name = Some g /\ lookup node g = Some (JObj nd) /\
    disk (start_scene store now name node f) =
      Parsed (JObj [ ("scene", JStr name);
                     ("current_node", JStr node);
                     ("next_speaker", dget "speaker" nd);
                     ("waiting_for_choice", JBool false);
                     ("started_at", JStr now);
                     ("scene_active", JBool true) ]) /\
    result (get_scene_status (disk (start_scene store now name node f))) =
      Ret (JObj [ ("active", JBool true);
                  ("scene", JStr name);
                  ("current_node", JStr node);
                  ("next_speaker", dget "speaker" nd);
                  ("waiting_for_choice", JBool false);
                  ("started_at", JStr now);
                  ("ended_at", JNull);
                  ("stopped_at", JNull) ]).
Proof.
  intros Hok.
  destruct (start_scene_cases store now name node f)
    as [[Hr _]|(g & nd & Hg & Hn & Hs & _ & Hd)]; [congruence|].
  exists g, nd. rewrite Hd. repeat split; auto.
Qed.

Lemma start_scene_overwrites_state_witness :
  let f := state_at "choice.json" "nodeY" (JStr "B") in
  result (start_scene demo_store "2024-01-02T10:00:00" "demo.json" "start" f) = Ret true /\
  exists g nd,
    graph_of demo_store "demo.json" = Some g /\ lookup "start" g = Some (JObj nd) /\
    disk (start_scene demo_store "2024-01-02T10:00:00" "demo.json" "start" f) =
      Parsed (JObj [ ("scene", JStr "demo.json");
                     ("current_node", JStr "start");
                     ("next_speaker", dget "speaker" nd);
                     ("waiting_for_choice", JBool false);
                     ("started_at", JStr "2024-01-02T10:00:00");
                     ("scene_active", JBool true) ]) /\
    result (get_scene_status (disk (start_scene demo_store "2024-01-02T10:00:00" "demo.json" "start" f))) =
      Ret (JObj [ ("active", JBool true);
                  ("scene", JStr "demo.json");
                  ("current_node", JStr "start");
                  ("next_speaker", dget "speaker" nd);
                  ("waiting_for_choice", JBool false);
                  ("started_at", JStr "2024-01-02T10:00:00");
                  ("ended_at", JNull);
                  ("stopped_at", JNull) ]).
Proof.
  intros f. split; [reflexivity|].
  apply (start_scene_overwrites_state demo_store "2024-01-02T10:00:00" "demo.json" "start" f).
  reflexivity.
Defined.

(** C6: on a state that is not active, [advance_scene] returns [None] and
    writes nothing; on a record it takes the "No active scene" exit. *)
Theorem advance_on_idle_state_is_noop (store : scene_store) (now : string) (f : file) :
  scene_active f = false ->
  let r := advance_scene store now f in
  result r = Ret JNull /\ disk r = f /\
  (is_record f = true -> In (Log DEBUG "No active scene to advance") (trace r)).
Proof.
  intros Hidle r. subst r. split; [|split].
  - destruct (advance_scene_paths store now f) as
      [_ H _|_ _ H _|st s c g nd -> Ha _ _ _ _ _ _ _ _
      |st s c g nd t tn -> Ha _ _ _ _ _ _ _ _ _ _ _]; auto;
      rewrite scene_active_parsed in Hidle; congruence.
  - now apply advance_idle_keeps_disk.
  - unfold advance_scene. io_norm.
    destruct f as [| |j]; cbn; auto.
    destruct j as [| | | | | |st]; try discriminate.
    intros _. rewrite scene_active_parsed in Hidle.
    destruct st as [|e st']; cbn -[dget]; auto.
    rewrite Hidle. cbn. auto.
Qed.

Lemma advance_on_idle_state_is_noop_witness :
  let f := Parsed (JObj [("scene_active", JBool false); ("current_node", JNull)]) in
  result (advance_scene demo_store "t" f) = Ret JNull /\
  disk (advance_scene demo_store "t" f) = f.
Proof.
  intros f.
  destruct (advance_on_idle_state_is_noop demo_store "t" f eq_refl) as (H1 & H2 & _).
  split; [exact H1 | exact H2].
Defined.

(** C7, as stated, fails: the scene of [stuck_graph] passes validation
    without errors, is acyclic and has one node, [start_scene] succeeds on
    it, and no number of [advance_scene] calls ends it. *)
Lemma stuck_scene_never_ends :
  (exists v, result (validate_scene demo_store "stuck.json" Missing) = Ret v /\
             valid v = true /\ errors v = [] /\ nodes v = 1) /\
  acyclic stuck_graph /\
  result (start_scene demo_store "2024-01-01T00:00:00" "stuck.json" "start" Missing)
    = Ret true /\
  forall n,
    scene_active (advance_times demo_store sample_clock n
      (disk (start_scene demo_store "2024-01-01T00:00:00" "stuck.json" "start" Missing)))
    = true.
Proof.
  split; [eexists; repeat split; reflexivity|].
  split; [exact stuck_graph_acyclic|]. split; [reflexivity|].
  intros n.
  change (disk (start_scene demo_store "2024-01-01T00:00:00" "stuck.json" "start" Missing))
    with (state_at "stuck.json" "start" (JStr "A")).
  generalize sample_clock.
  induction n as [|n IH]; intros clock; cbn [advance_times]; [reflexivity|].
  rewrite stuck_state_fixed. apply IH.
Qed.

(** C7, amended: on a graph that is [well_formed], [start_scene] succeeds;
    if the graph is acyclic the scene is over after at most as many
    [advance_scene] calls as the graph has nodes, and stays over; the state
    invariant holds after any number of calls; and if no node is terminal
    the scene stays active for ever. *)
Theorem advance_ends_within_node_count
    (store : scene_store) (name : string) (g : dict)
    (now : string) (clock : nat -> string) (f0 : file) :
  graph_of store name = Some g -> well_formed g = true ->
  let f := disk (start_scene store now name "start" f0) in
  result (start_scene store now name "start" f0) = Ret true /\
  (acyclic g ->
   exists k, 1 <= k <= length g /\
     forall n, k <= n -> scene_active (advance_times store clock n f) = false) /\
  (forall n, state_inv store (advance_times store clock n f) = true) /\
  ((forall a nd, lookup a g = Some (JObj nd) -> dget "next" nd <> JNull) ->
   forall n, scene_active (advance_times store clock n f) = true).
Proof.
  intros Hg Hwf f.
  destruct (well_formed_start store name g now f0 Hg Hwf) as (Hr & Hat & Hinv & Hk).
  fold f in Hat, Hinv.
  split; [exact Hr|]. split; [|split].
  - intros Hacyc.
    destruct (advance_bound store g name Hwf Hg Hacyc (length g) [] "start" f clock
                Hat) as (k & Hk' & Hfin); auto.
    + discriminate.
    + constructor.
    + intros x [].
    + intros v [].
    + simpl. lia.
    + exists k. split; [simpl in Hk'; lia|].
      intros n Hn. replace n with (k + (n - k)) by lia.
      rewrite advance_times_add, advance_times_idle; exact Hfin.
  - intros n. now apply advance_times_keeps_inv.
  - intros Hnt n. eapply advance_never_ends; eauto. discriminate.
Qed.

Lemma advance_ends_within_node_count_witness :
  (graph_of demo_store "demo.json" = Some demo_graph /\
   well_formed demo_graph = true /\ acyclic demo_graph /\
   exists k, 1 <= k <= 2 /\
     forall n, k <= n ->
       scene_active (advance_times demo_store sample_clock n
         (disk (start_scene demo_store "t0" "demo.json" "start" Missing))) = false) /\
  (graph_of demo_store "loop.json" = Some loop_graph /\
   well_formed loop_graph = true /\
   forall n,
     scene_active (advance_times demo_store sample_clock n
       (disk (start_scene demo_store "t0" "loop.json" "start" Missing))) = true).
Proof.
  split.
  - split; [reflexivity|]. split; [reflexivity|]. split; [exact demo_graph_acyclic|].
    destruct (advance_ends_within_node_count demo_store "demo.json" demo_graph
                "t0" sample_clock Missing eq_refl eq_refl) as (_ & H & _).
    exact (H demo_graph_acyclic).
  - split; [reflexivity|]. split; [reflexivity|].
    destruct (advance_ends_within_node_count demo_store "loop.json" loop_graph
                "t0" sample_clock Missing eq_refl eq_refl) as (_ & _ & _ & H).
    exact (H loop_graph_no_terminal).
Defined.

(** C8: on a state file that holds a record, or nothing readable, two
    calls of [stop_scene] in a row both return [True] and leave the scene
    inactive; with equal time stamps the second call changes nothing; when
    the file is missing none is written. *)
Theorem stop_scene_is_idempotent (now1 now2 : string) (f : file) :
  is_record f = true ->
  let r1 := stop_scene now1 f in
  let r2 := stop_scene now2 (disk r1) in
  result r1 = Ret true /\ result r2 = Ret true /\
  scene_active (disk r1) = false /\ scene_active (disk r2) = false /\
  (now1 = now2 -> disk r2 = disk r1) /\
  (f = Missing -> disk r1 = Missing /\ disk r2 = Missing).
Proof.
  intros Hrec r1 r2. subst r1 r2.
  destruct (stop_scene_cases now1 f)
    as [(Hf & Hr & Hd)|[(st & -> & Hst & Hr & Hd)|(_ & Hn & _)]]; [| |congruence].
  - (* nothing to stop: nothing is written, twice *)
    rewrite Hd.
    destruct (stop_scene_on_nothing now2 f Hf) as [Hr2 Hd2].
    rewrite Hd2.
    assert (Hidle : scene_active f = false).
    { unfold scene_active, field.
      destruct (load_scene_state_value f) as [| | | | | |d]; auto.
      destruct d; [reflexivity|discriminate]. }
    repeat split; auto.
  - rewrite Hd.
    destruct (stop_scene_on_record now2 _ (stopped_state_nonempty now1 st))
      as [Hr2 Hd2].
    rewrite Hr2, Hd2. repeat split; auto using scene_active_stopped.
    + intros <-. now rewrite stopped_state_again.
    + discriminate.
    + discriminate.
Qed.

Lemma stop_scene_is_idempotent_witness :
  let f := state_at "demo.json" "start" (JStr "A") in
  is_record f = true /\
  (result (stop_scene "t1" f) = Ret true /\
   result (stop_scene "t2" (disk (stop_scene "t1" f))) = Ret true /\
   scene_active (disk (stop_scene "t1" f)) = false /\
   scene_active (disk (stop_scene "t2" (disk (stop_scene "t1" f)))) = false /\
   ("t1" = "t2" -> disk (stop_scene "t2" (disk (stop_scene "t1" f))) = disk (stop_scene "t1" f)) /\
   (f = Missing -> disk (stop_scene "t1" f) = Missing /\
                   disk (stop_scene "t2" (disk (stop_scene "t1" f))) = Missing)).
Proof.
  intros f. split; [reflexivity|].
  apply (stop_scene_is_idempotent "t1" "t2" f). reflexivity.
Defined.

(** C9, as stated, fails: an [advance_scene] that ends the scene and one
    that fails on an unknown node return the same value, [None]. *)
Lemma advance_end_and_failure_return_the_same :
  let at_end := state_at "demo.json" "end" (JStr "B") in
  let at_ghost := state_at "demo.json" "ghost" (JStr "B") in
  let r_end := advance_scene demo_store "t" at_end in
  let r_bad := advance_scene demo_store "t" at_ghost in
  In (Log INFO "Scene '{scene_name}' has ended") (trace r_end) /\
  scene_active (disk r_end) = false /\
  In (Log ERROR "Current node '{current_node}' not found in scene data") (trace r_bad) /\
  disk r_bad = at_ghost /\
  result r_end = Ret JNull /\ result r_bad = Ret JNull.
Proof.
  cbv zeta. repeat split; try reflexivity.
  - cbn. auto.
  - cbn. auto.
Qed.

(** C9, amended: [advance_scene] returns the content of the next node, a
    non-empty mapping, exactly when it moved: the node that the [next] of
    the current node resolves to, which is the current node of the state
    it leaves.  It returns [None] when the scene ended at a node without
    [next], when the call failed and when no scene was active.  The three
    are told apart by the state file and the log only. *)
Theorem advance_scene_results (store : scene_store) (now : string) (f : file) :
  let r := advance_scene store now f in
  (exists s c g cur t nd,
      field "scene" f = JStr s /\ field "current_node" f = JStr c /\
      graph_of store s = Some g /\ lookup c g = Some (JObj cur) /\
      resolve_next (dget "next" cur) = Some (JStr t) /\
      lookup t g = Some (JObj nd) /\
      result r = Ret (JObj nd) /\ nd <> [] /\
      field "scene" (disk r) = JStr s /\
      field "current_node" (disk r) = JStr t /\
      field "next_speaker" (disk r) = dget "speaker" nd /\
      scene_active f = true /\ scene_active (disk r) = true /\
      logged_error (trace r) = false) \/
  (result r = Ret JNull /\
   ((exists s c g cur,
        field "scene" f = JStr s /\ field "current_node" f = JStr c /\
        graph_of store s = Some g /\ lookup c g = Some (JObj cur) /\
        dget "next" cur = JNull /\
        scene_active f = true /\ scene_active (disk r) = false /\
        field "ended_at" (disk r) = JStr now /\
        logged_error (trace r) = false) \/
    (scene_active f = true /\ disk r = f /\ logged_error (trace r) = true) \/
    (scene_active f = false /\ disk r = f))).
Proof.
  cbv zeta.
  destruct (advance_scene_paths store now f) as
    [Hi Hr Hd|Ha Hlog Hr Hd|st s c g nd -> Ha Hs Hc Hg Hn Hnext Hlog Hr Hd
    |st s c g nd t tn -> Ha Hs Hc Hg Hn Hnext _ Ht Hsp Hlog Hr Hd].
  - right. auto.
  - right. auto 6.
  - right. split; auto. left. exists s, c, g, nd.
    rewrite Hd, !scene_active_parsed.
    unfold field, ended_state. cbn [load_scene_state_value]. dict_simpl.
    repeat split; auto.
  - left. exists s, c, g, nd, t, tn. rewrite Hd, !scene_active_parsed.
    unfold field, moved_state. cbn [load_scene_state_value]. dict_simpl.
    repeat split; auto. eapply truthy_dget_dict; eauto.
Qed.

(** C10: a missing or unreadable state file reads as the empty state:
    [load_scene_state] returns it, the status is inactive, [advance_scene]
    returns [None] and [stop_scene] returns [True], both without writing. *)
Theorem unreadable_state_reads_as_empty (store : scene_store) (now : string) (f : file) :
  f = Missing \/ f = Unreadable ->
  result (load_scene_state f) = Ret (JObj []) /\
  result (get_scene_status f) = Ret (JObj [("active", JBool false)]) /\
  result (advance_scene store now f) = Ret JNull /\
  disk (advance_scene store now f) = f /\
  result (stop_scene now f) = Ret true /\
  disk (stop_scene now f) = f.
Proof.
  intros [-> | ->]; repeat split; reflexivity.
Qed.

Lemma unreadable_state_reads_as_empty_witness :
  result (get_scene_status Unreadable) = Ret (JObj [("active", JBool false)]) /\
  disk (advance_scene demo_store "t" Unreadable) = Unreadable.
Proof.
  destruct (unreadable_state_reads_as_empty demo_store "t" Unreadable (or_intror eq_refl))
    as (_ & H1 & _ & H2 & _).
  split; [exact H1 | exact H2].
Defined.

(** * Further properties *)

(** ** The tick of a participant, case by case *)

Lemma eq_str_true v s : eq_str v s = true -> v = JStr s.
Proof.
  destruct v; simpl; try discriminate. intros H.
  apply String.eqb_eq in H. now subst.
Qed.

Ltac tick_cbn :=
  cbn -[dget lookup has_key dset truthy dget_obj din_obj dgetitem_obj
        resolve_next String.eqb scene_file scene_active logged_error
        ended_state moved_state stopped_state initial_state
        advance_scene _send_dialogue_message py_sleep eq_str actions].

Lemma tick_cases p store now f :
  let r := _check_and_participate p store now f in
  (actions (trace r) = [] /\ disk r = f) \/ my_turn p store f.
Proof.
  unfold _check_and_participate, _perform_dialogue_turn. io_norm.
  destruct f as [| |j]; cbn; auto.
  destruct (truthy j) eqn:Htj; tick_cbn; [|auto].
  destruct j as [| | | | | |st]; tick_cbn; auto.
  destruct (truthy (dget "scene_active" st)) eqn:Hact; tick_cbn; [|auto].
  destruct (eq_str (dget "next_speaker" st) (bot_name p)) eqn:Hturn; tick_cbn; [|auto].
  apply eq_str_true in Hturn.
  destruct (truthy (dget "scene" st)) eqn:Hsc; tick_cbn; [|auto].
  destruct (truthy (dget "current_node" st)) eqn:Hcn; tick_cbn; [|auto].
  destruct (dget "scene" st) as [| | | |s| |] eqn:Es; tick_cbn; auto.
  destruct (scene_file store s) as [| |gj] eqn:Ef; tick_cbn; auto.
  destruct (truthy gj) eqn:Hg; tick_cbn; [|auto].
  destruct gj as [| | | | | |g]; tick_cbn; auto.
  destruct (dget "current_node" st) as [| | | |c| |] eqn:Ec; tick_cbn; auto.
  cbn [dget_obj]. tick_cbn.
  destruct (truthy (dget c g)) eqn:Hnd; tick_cbn; [|auto].
  destruct (dget c g) as [| | | | | |nd] eqn:End; tick_cbn; auto.
  destruct (eq_str (dget "speaker" nd) (bot_name p)) eqn:Hsp; tick_cbn; [|auto].
  right. apply eq_str_true in Hsp. apply dget_JObj_lookup in End.
  apply graph_of_parsed in Ef.
  exists st, s, c, g, nd. repeat split; auto.
  - now apply truthy_JStr.
  - intros ->. discriminate.
Qed.

Lemma send_dialogue_message_outcome p nd f :
  let r := _send_dialogue_message p (JObj nd) f in
  result r = Ret tt /\ disk r = f /\
  actions (trace r) =
    match bot_instance p with
    | Channel true => [Send (bot_name p, dget_default "text" (JStr "") nd)]
    | _ => []
    end.
Proof.
  unfold _send_dialogue_message, channel_send. io_norm.
  destruct (bot_instance p) as [| |[|]]; cbn; auto.
  destruct (dget_default "text" (JStr "") nd); cbn; auto.
Qed.

Ltac leaf := try solve [split; [reflexivity | eexists; reflexivity]].

Lemma advance_scene_only_logs store now f :
  let r := advance_scene store now f in
  actions (trace r) = [] /\ exists v, result r = Ret v.
Proof.
  unfold advance_scene. io_norm.
  destruct f as [| |j]; cbn; leaf.
  destruct (truthy j) eqn:Htj; io_step; leaf.
  destruct j as [| | | | | |st]; io_step; leaf.
  destruct (truthy (dget "scene_active" st)); io_step; leaf.
  destruct (truthy (dget "scene" st)); io_step; leaf.
  destruct (truthy (dget "current_node" st)); io_step; leaf.
  destruct (dget "scene" st) as [| | | |s| |]; io_step; leaf.
  destruct (scene_file store s) as [| |gj]; io_step; leaf.
  destruct (truthy gj); io_step; leaf.
  destruct gj as [| | | | | |g]; io_step; leaf.
  destruct (dget "current_node" st) as [| | | |c| |]; io_step; leaf.
  cbn [dget_obj]. io_step.
  destruct (truthy (dget c g)); io_step; leaf.
  destruct (dget c g) as [| | | | | |nd]; io_step; leaf.
  destruct (is_none (dget "next" nd)); io_step; leaf.
  destruct (resolve_next (dget "next" nd)) as [nn|]; io_step; leaf.
  destruct (truthy nn); io_step; leaf.
  destruct nn as [| | | |t| |]; cbn [din_obj dgetitem_obj]; io_step; leaf.
  unfold has_key.
  destruct (lookup t g) as [x|]; io_step; leaf.
  destruct x as [| | | | | |tn]; io_step; leaf.
  destruct (truthy (dget "speaker" tn)); io_step; leaf.
Qed.

Lemma py_sleep_ok v f :
  match v with
  | JInt z => (float_limit <=? z)%Z = false
  | JFloat _ | JBool _ => True
  | _ => False
  end ->
  py_sleep v f = mkOutcome (Ret tt) f [Sleep (seconds_of v)].
Proof.
  destruct v; cbn [py_sleep seconds_of]; try contradiction; try reflexivity.
  intros ->. reflexivity.
Qed.

Lemma py_sleep_raises v f :
  match v with
  | JInt z => (float_limit <=? z)%Z = true
  | JFloat _ | JBool _ => False
  | _ => True
  end ->
  py_sleep v f = mkOutcome Raise f [].
Proof.
  destruct v; cbn [py_sleep]; try contradiction; try reflexivity.
  intros ->. reflexivity.
Qed.

Section MyTurn.
Variables (p : participant) (store : scene_store) (now : string)
          (st : dict) (s c : string) (g nd : dict).
Hypothesis Hact : truthy (dget "scene_active" st) = true.
Hypothesis Hturn : dget "next_speaker" st = JStr (bot_name p).
Hypothesis Hscene : dget "scene" st = JStr s.
Hypothesis Hcur : dget "current_node" st = JStr c.
Hypothesis Hc : c <> "".
Hypothesis Hg : graph_of store s = Some g.
Hypothesis Hnode : lookup c g = Some (JObj nd).
Hypothesis Hnd : nd <> [].
Hypothesis Hsp : dget "speaker" nd = JStr (bot_name p).

Ltac to_turn :=
  let Hf := fresh "Hf" in
  let Hs := fresh "Hs" in
  destruct (graph_of_inv _ _ _ Hg) as [Hf Hs];
  unfold _check_and_participate, _perform_dialogue_turn; io_norm;
  cbn [load_scene_state_value];
  rewrite (truthy_dget_nonempty _ _ Hact); tick_cbn;
  rewrite Hact; tick_cbn; rewrite Hturn, eq_str_refl; tick_cbn;
  rewrite Hscene, Hcur; tick_cbn; cbn [truthy];
  rewrite (string_eqb_empty_false _ Hs), (string_eqb_empty_false _ Hc);
  tick_cbn; rewrite Hf; tick_cbn;
  rewrite (lookup_nonempty _ _ _ Hnode); tick_cbn; cbn [dget_obj]; tick_cbn;
  rewrite (lookup_dget _ _ _ Hnode), (truthy_nonempty _ Hnd); tick_cbn;
  cbn [py_get]; tick_cbn; rewrite Hsp, eq_str_refl; tick_cbn.

Lemma tick_on_turn :
  wait_ok nd = true ->
  let f := Parsed (JObj st) in
  let r := _check_and_participate p store now f in
  disk r = disk (advance_scene store now f) /\
  actions (trace r) =
    match bot_instance p with
    | Channel true => [Send (bot_name p, dget_default "text" (JStr "") nd)]
    | _ => []
    end ++ [Sleep (seconds_of (dget_default "wait" (JInt 2) nd)); Advance].
Proof.
  intros Hw. to_turn.
  destruct (send_dialogue_message_outcome p nd (Parsed (JObj st))) as (Hr & Hd & Ha).
  destruct (_send_dialogue_message p (JObj nd) (Parsed (JObj st))) as [rs ds ts].
  cbn in Hr, Hd, Ha. subst rs ds. tick_cbn.
  rewrite py_sleep_ok
    by (unfold wait_ok in Hw; destruct (dget_default "wait" (JInt 2) nd);
        auto; try discriminate; now apply negb_true_iff).
  tick_cbn.
  destruct (advance_scene_only_logs store now (Parsed (JObj st))) as (Hq & v & Hv).
  destruct (advance_scene store now (Parsed (JObj st))) as [ra da ta].
  cbn in Hq, Hv. subst ra. tick_cbn. split; [reflexivity|].
  unfold actions in *. cbn. rewrite ?filter_app. cbn. rewrite ?filter_app.
  now rewrite Ha, Hq.
Qed.

Lemma tick_on_bad_wait :
  wait_ok nd = false ->
  let f := Parsed (JObj st) in
  let r := _check_and_participate p store now f in
  disk r = f /\
  actions (trace r) =
    match bot_instance p with
    | Channel true => [Send (bot_name p, dget_default "text" (JStr "") nd)]
    | _ => []
    end.
Proof.
  intros Hw. to_turn.
  destruct (send_dialogue_message_outcome p nd (Parsed (JObj st))) as (Hr & Hd & Ha).
  destruct (_send_dialogue_message p (JObj nd) (Parsed (JObj st))) as [rs ds ts].
  cbn in Hr, Hd, Ha. subst rs ds. tick_cbn.
  rewrite py_sleep_raises
    by (unfold wait_ok in Hw; destruct (dget_default "wait" (JInt 2) nd);
        auto; try discriminate; now apply negb_false_iff).
  tick_cbn. split; [reflexivity|].
  unfold actions in *. cbn. rewrite ?filter_app. cbn. now rewrite Ha, ?app_nil_r.
Qed.
End MyTurn.

(** ** Polling rounds of a cast *)

Lemma try_except_unit (body handler : io unit) f :
  (forall d, result (handler d) = Ret tt) ->
  result (try_except body handler f) = Ret tt.
Proof.
  intros H. unfold try_except.
  destruct (body f) as [[[]|] d t]; cbn; auto.
  specialize (H d). destruct (handler d); cbn in *; auto.
Qed.

Lemma tick_never_raises p store now f :
  result (_check_and_participate p store now f) = Ret tt.
Proof.
  unfold _check_and_participate. apply try_except_unit. reflexivity.
Qed.

Lemma tick_idle p store now f :
  scene_active f = false ->
  actions (trace (_check_and_participate p store now f)) = [] /\
  disk (_check_and_participate p store now f) = f.
Proof.
  intros Hidle.
  destruct (tick_cases p store now f) as [H|(st & s & c & g & nd & -> & Ha & _)]; auto.
  rewrite scene_active_parsed in Hidle. congruence.
Qed.

Lemma poll_round_cons_disk p rest store now f :
  disk (poll_round (p :: rest) store now f) =
  disk (poll_round rest store now (disk (_check_and_participate p store now f))).
Proof.
  cbn [poll_round]. unfold iobind.
  pose proof (tick_never_raises p store now f) as Hr.
  destruct (_check_and_participate p store now f) as [r d t].
  cbn in Hr. subst r. cbn [disk].
  destruct (poll_round rest store now d). reflexivity.
Qed.

Lemma poll_round_idle cast store now : forall f,
  scene_active f = false -> disk (poll_round cast store now f) = f.
Proof.
  induction cast as [|p rest IH]; intros f Hidle; [reflexivity|].
  rewrite poll_round_cons_disk.
  destruct (tick_idle p store now f Hidle) as [_ Hd].
  rewrite Hd. now apply IH.
Qed.

Lemma poll_rounds_idle cast store n : forall clock f,
  scene_active f = false -> poll_rounds cast store clock n f = f.
Proof.
  induction n as [|n IH]; intros clock f Hidle; cbn [poll_rounds]; auto.
  rewrite (poll_round_idle _ _ _ _ Hidle). now apply IH.
Qed.

Lemma poll_rounds_add cast store k : forall m clock f,
  poll_rounds cast store clock (k + m) f =
  poll_rounds cast store (fun i => clock (k + i)) m (poll_rounds cast store clock k f).
Proof.
  induction k as [|k IH]; intros m clock f; cbn [poll_rounds Nat.add];
    [reflexivity|apply IH].
Qed.

Lemma turn_state_at_node g s c f : turn_state g s c f -> at_node s c f.
Proof. intros (st & -> & Ha & Hs & Hc & _). exists st. auto. Qed.

(** One call of [advance_scene] from a state that names the speaker of its
    node ends the scene or leads to such a state at a successor. *)
Lemma advance_step_turn store now g s c f :
  well_formed g = true -> graph_of store s = Some g ->
  at_node s c f -> c <> "" -> has_key c g = true ->
  let f' := disk (advance_scene store now f) in
  scene_active f' = false \/
  exists t, edge g c t /\ t <> "" /\ has_key t g = true /\ turn_state g s t f'.
Proof.
  intros Hwf Hg (st & -> & Ha & Hs & Hc) Hne Hk.
  destruct (has_key_lookup _ _ Hk) as (x & Hx).
  destruct (node_ok_inv _ _ (well_formed_node _ _ _ Hwf Hx))
    as (nd & -> & Hnd & _).
  destruct (node_ok_next _ _ (well_formed_node _ _ _ Hwf Hx))
    as [Hnext|(t & Hres & Hin & Ht & Hkt)].
  - left.
    destruct (advance_scene_ends store now st s c g nd Ha Hs Hc Hne Hg Hx Hnd Hnext)
      as [_ Hd].
    cbv zeta. rewrite Hd. rewrite scene_active_parsed. unfold ended_state.
    dict_simpl. reflexivity.
  - right. exists t.
    destruct (has_key_lookup _ _ Hkt) as (y & Hy).
    destruct (node_ok_inv _ _ (well_formed_node _ _ _ Hwf Hy))
      as (tn & -> & _ & Hsp).
    destruct (advance_scene_moves store now st s c g nd Ha Hs Hc Hne Hg Hx Hnd
                t tn Hres Ht Hy Hsp) as [_ Hd].
    cbv zeta. rewrite Hd. repeat split; auto.
    + exists (JObj nd). auto.
    + eexists. split; [reflexivity|]. unfold moved_state, speaker_at.
      rewrite Hy. dict_simpl. auto.
Qed.

Section Cast.
Variables (cast : list participant) (store : scene_store) (g : dict) (s : string).
Hypothesis Hwf : well_formed g = true.
Hypothesis Hcast : cast_ok cast g = true.
Hypothesis Hg : graph_of store s = Some g.

Lemma cast_node c nd :
  lookup c g = Some (JObj nd) ->
  existsb (fun p => eq_str (dget "speaker" nd) (bot_name p)) cast = true /\
  wait_ok nd = true.
Proof.
  intros Hl. unfold cast_ok in Hcast. rewrite forallb_forall in Hcast.
  specialize (Hcast _ (lookup_In _ _ _ Hl)). cbn in Hcast.
  now apply andb_prop in Hcast.
Qed.

(** A tick on a state that names the speaker of its node. *)
Lemma tick_step p now c f :
  turn_state g s c f -> c <> "" -> has_key c g = true ->
  let f' := disk (_check_and_participate p store now f) in
  (eq_str (speaker_at g c) (bot_name p) = false /\ f' = f) \/
  (eq_str (speaker_at g c) (bot_name p) = true /\
   (scene_active f' = false \/
    exists t, edge g c t /\ t <> "" /\ has_key t g = true /\ turn_state g s t f')).
Proof.
  intros Hts Hc Hk.
  pose proof (turn_state_at_node _ _ _ _ Hts) as Hat.
  destruct Hts as (st & -> & Ha & Hs & Hcur & Hnext).
  destruct (has_key_lookup _ _ Hk) as (x & Hx).
  destruct (node_ok_inv _ _ (well_formed_node _ _ _ Hwf Hx)) as (nd & -> & Hnd & _).
  assert (Hsa : speaker_at g c = dget "speaker" nd) by (unfold speaker_at; now rewrite Hx).
  destruct (eq_str (speaker_at g c) (bot_name p)) eqn:Hme.
  - right. split; [reflexivity|].
    apply eq_str_true in Hme.
    destruct (cast_node _ _ Hx) as [_ Hw].
    destruct (tick_on_turn p store now st s c g nd Ha) as [Hd _]; auto; try congruence.
    cbv zeta. rewrite Hd.
    apply (advance_step_turn store now g s c _ Hwf Hg Hat Hc Hk).
  - left. split; [reflexivity|].
    destruct (tick_cases p store now (Parsed (JObj st)))
      as [[_ Hd]|(st' & s' & c' & g' & nd' & [= <-] & _ & Hn' & _)]; auto.
    rewrite <- Hnext, Hn', eq_str_refl in Hme. discriminate.
Qed.

(** A round ends the scene, or moves it along the graph, or leaves it
    where it is when no member of the cast is the speaker. *)
Lemma round_step now : forall (members : list participant) c f,
  turn_state g s c f -> c <> "" -> has_key c g = true ->
  let f' := disk (poll_round members store now f) in
  scene_active f' = false \/
  (exists t, clos_trans string (edge g) c t /\ t <> "" /\ has_key t g = true /\
             turn_state g s t f') \/
  (f' = f /\ existsb (fun p => eq_str (speaker_at g c) (bot_name p)) members = false).
Proof.
  induction members as [|p rest IH]; intros c f Hts Hc Hk.
  - right; right. split; reflexivity.
  - cbv zeta. rewrite poll_round_cons_disk. cbn [existsb].
    destruct (tick_step p now c f Hts Hc Hk)
      as [[Hme Hd]|[Hme [Hend|(t & He & Ht & Hkt & Hts')]]].
    + rewrite Hd, Hme. cbn [orb]. apply IH; auto.
    + left. rewrite (poll_round_idle _ _ _ _ Hend). exact Hend.
    + destruct (IH t _ Hts' Ht Hkt) as [Hend|[(u & Hr & Hu & Hku & Htu)|[Hd _]]].
      * now left.
      * right; left. exists u. repeat split; auto.
        eapply t_trans; [apply t_step; exact He|exact Hr].
      * right; left. exists t. rewrite Hd. repeat split; auto.
        now apply t_step.
Qed.

Lemma round_progress now c f :
  turn_state g s c f -> c <> "" -> has_key c g = true ->
  let f' := disk (poll_round cast store now f) in
  scene_active f' = false \/
  exists t, clos_trans string (edge g) c t /\ t <> "" /\ has_key t g = true /\
            turn_state g s t f'.
Proof.
  intros Hts Hc Hk.
  destruct (round_step now cast c f Hts Hc Hk) as [H|[H|[_ Hno]]]; auto.
  exfalso.
  destruct (has_key_lookup _ _ Hk) as (x & Hx).
  destruct (node_ok_inv _ _ (well_formed_node _ _ _ Hwf Hx)) as (nd & -> & _ & _).
  destruct (cast_node _ _ Hx) as [Hin _].
  unfold speaker_at in Hno. rewrite Hx in Hno. congruence.
Qed.

Lemma rounds_bound :
  acyclic g ->
  forall n vis c f clock,
    turn_state g s c f -> c <> "" -> has_key c g = true ->
    NoDup vis -> incl vis (keys g) -> ~ In c vis ->
    (forall v, In v vis -> clos_trans string (edge g) v c) ->
    length g - length vis <= n ->
    exists k, 1 <= k <= length g - length vis /\
              scene_active (poll_rounds cast store clock k f) = false.
Proof.
  intros Hacyc.
  induction n as [|n IH]; intros vis c f clock Hts Hc Hk Hnd Hincl Hnin Hreach Hn.
  all: assert (Hlen : S (length vis) <= length g).
  all: try (rewrite <- keys_length;
            apply (NoDup_incl_length (l := c :: vis));
            [ constructor; auto
            | intros x [<-|Hx]; auto;
              destruct (has_key_lookup _ _ Hk) as (y & Hy);
              eapply lookup_In_keys; eauto ]).
  - lia.
  - destruct (round_progress (clock 0) c f Hts Hc Hk)
      as [Hend|(t & Hedge & Ht & Hkt & Hts')].
    + exists 1. split; [lia|]. exact Hend.
    + assert (Hfresh : ~ In t (c :: vis)).
      { intros [<-|Hin].
        - now apply (Hacyc c).
        - apply (Hacyc t). eapply t_trans; [apply Hreach; eauto|exact Hedge]. }
      destruct (IH (c :: vis) t (disk (poll_round cast store (clock 0) f))
                  (fun i => clock (S i)) Hts' Ht Hkt) as (k & Hk' & Hfin).
      * constructor; auto.
      * intros x [<-|Hx]; auto.
        destruct (has_key_lookup _ _ Hk) as (y & Hy).
        eapply lookup_In_keys; eauto.
      * exact Hfresh.
      * intros v [<-|Hv]; [exact Hedge|].
        eapply t_trans; [apply Hreach; eauto|exact Hedge].
      * simpl. lia.
      * exists (S k). split; [simpl in Hk'; lia|]. exact Hfin.
Qed.
End Cast.

(** ** What [validate_scene] reports *)

Lemma app_eq_self_nil {A} (l extra : list A) : l ++ extra = l -> extra = [].
Proof.
  intros H. rewrite <- (app_nil_r l) in H at 2. now apply app_inv_head in H.
Qed.

Ltac bad_choice IH :=
  match goal with
  | |- context [validate_choices _ _ _ (?e ++ [?x])] =>
      let extra := fresh "extra" in
      let raised := fresh "raised" in
      destruct (IH (e ++ [x])) as (extra & raised & -> & _);
      exists (x :: extra), raised; rewrite <- app_assoc;
      split; [reflexivity|];
      cbn; split; [intros [? _]; discriminate | discriminate]
  end.

Lemma validate_choices_spec g name : forall m errs,
  exists extra raised,
    validate_choices g name m errs = (errs ++ extra, raised) /\
    ((extra = [] /\ raised = false) <->
     forallb (choice_target_known g) (values m) = true).
Proof.
  induction m as [|[choice target] m IH]; intros errs.
  - exists [], false. rewrite app_nil_r. simpl. intuition.
  - cbn [validate_choices values map snd forallb].
    fold (values m).
    destruct target as [| | | |t| |]; cbn [din_obj choice_target_known];
      try (bad_choice IH).
    + destruct (has_key t g).
      * destruct (IH errs) as (extra & raised & -> & Hiff).
        exists extra, raised. split; [reflexivity|]. cbn. exact Hiff.
      * bad_choice IH.
    + exists [], true. rewrite app_nil_r. split; [reflexivity|].
      cbn. split; [intros [_ ?]; discriminate | discriminate].
    + exists [], true. rewrite app_nil_r. split; [reflexivity|].
      cbn. split; [intros [_ ?]; discriminate | discriminate].
Qed.

Lemma validate_node_spec g name nd errs spk :
  exists extra spk' raised,
    validate_node g name nd errs spk = ((errs ++ extra, spk'), raised) /\
    ((extra = [] /\ raised = false) <-> node_valid g nd = true).
Proof.
  destruct nd as [| | | | | |n]; cbn [validate_node node_valid];
    try (exists [ENotDict name], spk, false; split; [reflexivity|];
         split; [intros [? _]; discriminate | discriminate]).
  destruct (has_key "speaker" n) eqn:Hsp; cbn [andb].
  2:{ (* no speaker: an error, whatever follows *)
      destruct (has_key "text" n);
      destruct (dget "next" n) as [| | | |t| |m];
      try (destruct (has_key t g));
      try (destruct (validate_choices_spec g name m
                       (errs ++ [EMissingSpeaker name])) as (ex & r & -> & _));
      try (destruct (validate_choices_spec g name m
                       ((errs ++ [EMissingSpeaker name]) ++ [EMissingText name]))
             as (ex & r & -> & _));
      rewrite <- ?app_assoc; cbn [app];
      eexists (EMissingSpeaker name :: _), spk, _;
      (split; [reflexivity|]);
      (split; [intros [? _]; discriminate | discriminate]). }
  unfold set_add.
  destruct (hashable (dget "speaker" n)) eqn:Hh.
  2:{ exists [], spk, true. rewrite app_nil_r.
      destruct (dget "speaker" n); try discriminate;
      (split; [reflexivity|]);
      (split; [intros [_ ?]; discriminate | discriminate]). }
  cbn [andb].
  assert (Hadd : exists spk',
             match dget "speaker" n with
             | JList _ | JObj _ => Raise
             | _ => Ret (if existsb (hash_eq (dget "speaker" n)) spk then spk
                         else spk ++ [dget "speaker" n])
             end = Ret spk').
  { destruct (dget "speaker" n); try discriminate; eauto. }
  destruct Hadd as (spk' & ->).
  destruct (has_key "text" n) eqn:Htx; cbn [andb].
  - destruct (dget "next" n) as [| | | |t| |m].
    1-4,6: exists [], spk', false; rewrite app_nil_r; split; [reflexivity|];
           split; auto.
    + destruct (has_key t g).
      * exists [], spk', false. rewrite app_nil_r. split; [reflexivity|]. split; auto.
      * exists [EBadNext name t], spk', false. split; [reflexivity|].
        split; [intros [? _]; discriminate | discriminate].
    + destruct (validate_choices_spec g name m errs) as (ex & r & -> & Hiff).
      exists ex, spk', r. split; [reflexivity|]. exact Hiff.
  - destruct (dget "next" n) as [| | | |t| |m];
      try (destruct (has_key t g));
      try (destruct (validate_choices_spec g name m (errs ++ [EMissingText name]))
             as (ex & r & -> & _));
      rewrite <- ?app_assoc; cbn [app];
      eexists (EMissingText name :: _), spk', _;
      (split; [reflexivity|]);
      (split; [intros [? _]; discriminate | discriminate]).
Qed.

Lemma validate_nodes_spec g : forall items errs spk,
  exists extra spk' raised,
    validate_nodes g items errs spk = ((errs ++ extra, spk'), raised) /\
    ((extra = [] /\ raised = false) <->
     forallb (node_valid g) (values items) = true).
Proof.
  induction items as [|[name nd] items IH]; intros errs spk.
  - exists [], spk, false. rewrite app_nil_r. simpl. intuition.
  - cbn [validate_nodes values map snd forallb]. fold (values items).
    destruct (validate_node_spec g name nd errs spk) as (ex & spk1 & r & -> & Hiff).
    destruct r.
    + exists ex, spk1, true. split; [reflexivity|].
      split; [intros [_ ?]; discriminate|].
      intros H. apply andb_prop in H as [H _]. apply Hiff in H. tauto.
    + destruct (IH (errs ++ ex) spk1) as (ex2 & spk2 & r2 & -> & Hiff2).
      exists (ex ++ ex2), spk2, r2. rewrite app_assoc. split; [reflexivity|].
      split.
      * intros [He Hr]. apply app_eq_nil in He as [-> ->].
        apply andb_true_intro. split; [apply Hiff|apply Hiff2]; auto.
      * intros H. apply andb_prop in H as [H1 H2].
        apply Hiff in H1 as [-> _]. apply Hiff2 in H2 as [-> ->]. auto.
Qed.

Lemma validate_choices_valid g name m errs :
  forallb (choice_target_known g) (values m) = true ->
  validate_choices g name m errs = (errs, false).
Proof.
  intros H.
  destruct (validate_choices_spec g name m errs) as (ex & r & Heq & Hiff).
  destruct (proj2 Hiff H) as [He Hr]. now rewrite Heq, He, Hr, app_nil_r.
Qed.

Lemma validate_node_valid g name nd errs spk :
  node_valid g nd = true ->
  validate_node g name nd errs spk = ((errs, add_speaker spk nd), false).
Proof.
  destruct nd as [| | | | | |n]; cbn [node_valid]; try discriminate.
  intros H. apply andb_prop in H as [H Hnext]. apply andb_prop in H as [H Htx].
  apply andb_prop in H as [Hsp Hh].
  cbn [validate_node add_speaker]. rewrite Hsp, Htx. unfold set_add.
  destruct (dget "speaker" n) eqn:Es; try discriminate;
    destruct (dget "next" n) as [| | | |t| |m]; try reflexivity;
    try (rewrite Hnext; reflexivity);
    try (rewrite (validate_choices_valid _ _ _ _ Hnext); reflexivity).
Qed.

Lemma validate_nodes_valid g : forall items errs spk,
  forallb (node_valid g) (values items) = true ->
  validate_nodes g items errs spk =
  ((errs, fold_left add_speaker (values items) spk), false).
Proof.
  induction items as [|[name nd] items IH]; intros errs spk H; [reflexivity|].
  cbn [values map snd forallb] in H. fold (values items) in H.
  apply andb_prop in H as [H1 H2].
  cbn [validate_nodes values map snd fold_left]. fold (values items).
  rewrite (validate_node_valid _ _ _ _ _ H1). now apply IH.
Qed.

Lemma validate_data_dict g :
  g <> [] ->
  validate_data (JObj g) =
  if graph_valid g then
    mkValidation true [] [] (length g) (fold_left add_speaker (values g) [])
  else
    mkValidation false (errors (validate_data (JObj g))) []
      (length g) (speakers (validate_data (JObj g))).
Proof.
  intros Hne. destruct g as [|e g']; [congruence|]. set (g := e :: g') in *.
  unfold validate_data, graph_valid.
  change (truthy (JObj g)) with true. cbn [negb py_len py_str_in].
  destruct (has_key "start" g) eqn:Hs; cbn [negb andb].
  - destruct (forallb (node_valid g) (values g)) eqn:Hv.
    + now rewrite (validate_nodes_valid g g [] [] Hv).
    + destruct (validate_nodes_spec g g [] []) as (ex & spk & r & Heq & Hiff).
      rewrite Heq. cbn [app] in *.
      destruct r; [reflexivity|].
      destruct ex as [|x ex]; [|reflexivity].
      exfalso. assert (H : forallb (node_valid g) (values g) = true) by (apply Hiff; auto).
      congruence.
  - destruct (validate_nodes_spec g g [EMissingStart] []) as (ex & spk & r & Heq & _).
    rewrite Heq. destruct r; reflexivity.
Qed.

Lemma validate_data_valid_iff j :
  valid (validate_data j) = true <->
  exists g, j = JObj g /\ graph_valid g = true.
Proof.
  split.
  - destruct j as [|b|z|q|s|l|g].
    1-6: unfold validate_data; cbn;
         repeat match goal with
                | |- context [if ?b then _ else _] => destruct b; cbn
                end; discriminate.
    destruct g as [|e g']; [discriminate|].
    rewrite validate_data_dict by discriminate.
    destruct (graph_valid (e :: g')) eqn:Hv; [eauto|discriminate].
  - intros (g & -> & Hv).
    assert (Hne : g <> []).
    { intros ->. discriminate. }
    rewrite validate_data_dict by exact Hne. now rewrite Hv.
Qed.

Lemma validate_data_errors j :
  valid (validate_data j) = true <-> errors (validate_data j) = [].
Proof.
  destruct j as [|b|z|q|s|l|g].
  1-6: unfold validate_data; cbn;
       repeat match goal with
              | |- context [if ?b then _ else _] => destruct b; cbn
              end; split; discriminate.
  destruct g as [|e g']; [cbn; split; discriminate|].
  set (g := e :: g').
  unfold validate_data. change (truthy (JObj g)) with true.
  cbn [negb py_len py_str_in].
  destruct (validate_nodes_spec g g (if has_key "start" g then [] else [EMissingStart]) [])
    as (ex & spk & r & Heq & _).
  rewrite Heq. destruct r; cbn [valid errors].
  - split; [discriminate|]. intros H. apply app_eq_nil in H as [_ H]. discriminate.
  - destruct ((if has_key "start" g then [] else [EMissingStart]) ++ ex);
      cbn; split; auto; discriminate.
Qed.

Lemma hash_eq_sym a b : hash_eq a b = hash_eq b a.
Proof.
  destruct a, b; cbn; try reflexivity;
    try apply String.eqb_sym; apply Qeq_bool_comm.
Qed.

Lemma hash_eq_refl a : hashable a = true -> hash_eq a a = true.
Proof.
  destruct a; cbn; try discriminate; intros _;
    try reflexivity; try apply String.eqb_refl; apply Qeq_bool_refl.
Qed.

Lemma distinct_speakers_snoc v : forall spk,
  distinct_speakers spk = true -> existsb (hash_eq v) spk = false ->
  distinct_speakers (spk ++ [v]) = true.
Proof.
  induction spk as [|a rest IH]; intros Hd Hn; [reflexivity|].
  cbn [distinct_speakers existsb app] in *.
  apply andb_prop in Hd as [Ha Hd]. apply orb_false_elim in Hn as [Hva Hn].
  apply negb_true_iff in Ha. rewrite existsb_app. cbn [existsb].
  rewrite Ha, (hash_eq_sym a v), Hva. cbn. now apply IH.
Qed.

Lemma add_speaker_distinct spk nd :
  distinct_speakers spk = true -> distinct_speakers (add_speaker spk nd) = true.
Proof.
  intros Hd. destruct nd; cbn [add_speaker]; auto.
  destruct (existsb (hash_eq (dget "speaker" d)) spk) eqn:He; auto.
  now apply distinct_speakers_snoc.
Qed.

Lemma add_speaker_keeps v spk nd :
  existsb (hash_eq v) spk = true -> existsb (hash_eq v) (add_speaker spk nd) = true.
Proof.
  intros H. destruct nd; cbn [add_speaker]; auto.
  destruct (existsb (hash_eq (dget "speaker" d)) spk); auto.
  rewrite existsb_app, H. reflexivity.
Qed.

Lemma fold_add_speaker_keeps v : forall nds spk,
  existsb (hash_eq v) spk = true ->
  existsb (hash_eq v) (fold_left add_speaker nds spk) = true.
Proof.
  induction nds as [|nd nds IH]; intros spk H; cbn [fold_left]; auto.
  apply IH. now apply add_speaker_keeps.
Qed.

Lemma fold_add_speaker_covers n : forall nds spk,
  In (JObj n) nds -> hashable (dget "speaker" n) = true ->
  existsb (hash_eq (dget "speaker" n)) (fold_left add_speaker nds spk) = true.
Proof.
  induction nds as [|nd nds IH]; intros spk Hin Hh; [contradiction|].
  cbn [fold_left]. destruct Hin as [->|Hin]; [|now apply IH].
  apply fold_add_speaker_keeps. cbn [add_speaker].
  destruct (existsb (hash_eq (dget "speaker" n)) spk) eqn:He; auto.
  rewrite existsb_app, He. cbn. now rewrite hash_eq_refl.
Qed.

Lemma fold_add_speaker_origin x : forall nds spk,
  In x (fold_left add_speaker nds spk) ->
  In x spk \/ exists n, In (JObj n) nds /\ x = dget "speaker" n.
Proof.
  induction nds as [|nd nds IH]; intros spk H; cbn [fold_left] in H; auto.
  destruct (IH _ H) as [Hin|(n & Hn & ->)].
  - destruct nd; cbn [add_speaker] in Hin; auto.
    destruct (existsb (hash_eq (dget "speaker" d)) spk); auto.
    apply in_app_or in Hin as [Hin|[<-|[]]]; auto.
    right. exists d. split; [now left|reflexivity].
  - right. exists n. split; [now right|reflexivity].
Qed.

Lemma fold_add_speaker_distinct : forall nds spk,
  distinct_speakers spk = true ->
  distinct_speakers (fold_left add_speaker nds spk) = true.
Proof.
  induction nds as [|nd nds IH]; intros spk H; cbn [fold_left]; auto.
  apply IH. now apply add_speaker_distinct.
Qed.

Lemma node_valid_hashable g n :
  node_valid g (JObj n) = true -> hashable (dget "speaker" n) = true.
Proof.
  cbn [node_valid]. intros H.
  apply andb_prop in H as [H _]. apply andb_prop in H as [H _].
  now apply andb_prop in H as [_ H].
Qed.

Lemma validate_scene_outcome store name f :
  result (validate_scene store name f) =
    Ret (validate_data (match scene_file store name with
                        | Parsed j => j
                        | _ => JNull
                        end)) /\
  disk (validate_scene store name f) = f.
Proof.
  unfold validate_scene. io_norm.
  destruct (scene_file store name); cbn; auto.
Qed.

Lemma node_valid_strict_ok g nd :
  node_valid g nd = true -> node_strict nd = true -> node_ok g nd = true.
Proof.
  destruct nd as [| | | | | |n]; try discriminate.
  cbn [node_valid node_strict node_ok]. intros Hv Hs.
  apply andb_prop in Hv as [_ Hv]. apply andb_prop in Hs as [Hsp Hs].
  rewrite Hsp. cbn [andb].
  destruct (dget "next" n) as [| | | |t| |m]; try discriminate; auto.
  - cbn [target_ok]. now rewrite Hs, Hv.
  - apply andb_prop in Hs as [Hm Hs]. rewrite Hm. cbn [andb].
    rewrite forallb_forall in *. intros v Hin.
    specialize (Hv v Hin). specialize (Hs v Hin).
    destruct v; try discriminate. cbn [target_ok]. cbn in Hs, Hv.
    now rewrite Hs, Hv.
Qed.

Lemma graph_valid_strict_well_formed g :
  graph_valid g = true -> forallb node_strict (values g) = true ->
  well_formed g = true.
Proof.
  unfold graph_valid, well_formed. intros Hv Hs.
  apply andb_prop in Hv as [Hst Hv]. rewrite Hst. cbn [andb].
  rewrite forallb_forall in *. intros nd Hin.
  apply node_valid_strict_ok; auto.
Qed.

(** ** Status, commands and the state they leave *)

Lemma truthy_dget_default k d :
  truthy (dget_default k (JBool false) d) = truthy (dget k d).
Proof. unfold dget_default, dget. destruct (lookup k d); reflexivity. Qed.

Lemma get_scene_status_outcome f :
  exists d,
    result (get_scene_status f) = Ret (JObj d) /\
    disk (get_scene_status f) = f /\
    has_key "active" d = true /\
    truthy (dget "active" d) = scene_active f /\
    (forall k, In k status_keys -> dget k d = field k f).
Proof.
  unfold get_scene_status, status_keys. io_norm.
  destruct f as [| |j]; cbn -[In].
  1-2: eexists; repeat split; try reflexivity;
       intros k Hk; cbn in Hk; intuition (subst; reflexivity).
  destruct j as [|b|z|q|s|l|st]; cbn -[In].
  1: eexists; repeat split; try reflexivity;
     intros k Hk; cbn in Hk; intuition (subst; reflexivity).
  1: destruct b; cbn -[In]; eexists; repeat split; try reflexivity;
     intros k Hk; cbn in Hk; intuition (subst; reflexivity).
  1: destruct (z =? 0)%Z; cbn -[In]; eexists; repeat split; try reflexivity;
     intros k Hk; cbn in Hk; intuition (subst; reflexivity).
  1: destruct (Qeq_bool q 0); cbn -[In]; eexists; repeat split; try reflexivity;
     intros k Hk; cbn in Hk; intuition (subst; reflexivity).
  1: destruct (String.eqb s ""); cbn -[In]; eexists; repeat split; try reflexivity;
     intros k Hk; cbn in Hk; intuition (subst; reflexivity).
  1: destruct l; cbn -[In]; eexists; repeat split; try reflexivity;
     intros k Hk; cbn in Hk; intuition (subst; reflexivity).
  destruct st as [|e st'].
  - cbn -[In]. eexists; repeat split; try reflexivity.
    intros k Hk; cbn in Hk; intuition (subst; reflexivity).
  - set (st := e :: st'). cbn -[In dget dget_default].
    eexists. repeat split; try reflexivity.
    + cbn. rewrite scene_active_parsed. apply truthy_dget_default.
    + intros k Hk. unfold field. cbn [load_scene_state_value].
      cbn in Hk. intuition (subst; reflexivity).
Qed.

Lemma start_scene_result store now name node f :
  result (start_scene store now name node f) = Ret true \/
  (result (start_scene store now name node f) = Ret false /\
   disk (start_scene store now name node f) = f).
Proof.
  destruct (start_scene_cases store now name node f)
    as [[Hr Hd]|(g & nd & _ & _ & _ & Hr & _)]; auto.
Qed.

(** X13: the [startscene] command starts the scene at node [start] and
    follows up publicly with the success message when [start_scene]
    returned [True], ephemerally with the failure message otherwise, in
    which case the state file is as it was. *)
Theorem startscene_outcome store now name f :
  let r := startscene store now name f in
  let r0 := start_scene store now name "start" f in
  disk r = disk r0 /\
  ((result r0 = Ret true /\
    result r = Ret [Defer; Followup (started_message name) false] /\
    result (start_scene_command store now name f) =
      Ret (JObj [("success", JBool true); ("message", started_message name)])) \/
   (result r0 = Ret false /\ disk r0 = f /\
    result r = Ret [Defer; Followup (start_failed_message name) true] /\
    result (start_scene_command store now name f) =
      Ret (JObj [("success", JBool false); ("message", start_failed_message name)]))).
Proof.
  cbv zeta. unfold startscene, start_scene_command.
  destruct (start_scene_result store now name "start" f) as [Hr|[Hr Hd]];
    unfold try_except, iobind, prepend, ret, lift;
    destruct (start_scene store now name "start" f) as [r0 d0 t0];
    cbn in Hr |- *; subst r0; cbn; auto.
  cbn in Hd. subst d0. split; [reflexivity|]. right. auto.
Qed.

(** X14: the [stopscene] command leaves the state file of [stop_scene]
    and follows up publicly when it returned [True], ephemerally with the
    failure message (and an unchanged state file) otherwise. *)
Theorem stopscene_outcome now f :
  let r := stopscene now f in
  let r0 := stop_scene now f in
  disk r = disk r0 /\
  ((result r0 = Ret true /\
    result r = Ret [Defer; Followup (JStr "🛑 Scene stopped successfully.") false]) \/
   (result r0 = Ret false /\ disk r0 = f /\
    result r = Ret [Defer; Followup (JStr "❌ Failed to stop scene.") true])).
Proof.
  cbv zeta. unfold stopscene, stop_scene_command.
  destruct (stop_scene_cases now f)
    as [(_ & Hr & Hd)|[(st & -> & _ & Hr & Hd)|(_ & _ & Hr & Hd)]];
    unfold try_except, iobind, prepend, ret, lift;
    destruct (stop_scene now _) as [r0 d0 t0];
    cbn in Hr, Hd |- *; subst r0 d0; cbn; auto.
Qed.

Lemma engine_get_scene_status_same f :
  result (engine_get_scene_status f) = result (get_scene_status f) /\
  disk (engine_get_scene_status f) = disk (get_scene_status f).
Proof.
  destruct (get_scene_status_outcome f) as (d & Hr & _).
  unfold engine_get_scene_status, try_except.
  destruct (get_scene_status f) as [r0 d0 t0]. cbn in Hr |- *. subst r0. auto.
Qed.

(** X12: the [scenestatus] command defers and follows up with one embed:
    green, with the scene, the current node and the next speaker of the
    state (and the start time, if any) while a scene is active, red and
    without fields otherwise.  It does not change the state file. *)
Theorem scenestatus_outcome f :
  disk (scenestatus f) = f /\
  result (scenestatus f) =
    Ret [ Defer;
          FollowupEmbed
            (if scene_active f then
               mkEmbed "🎭 Scene Status" "A scene is currently active" Green
                 ([ ("Scene", field "scene" f, true);
                    ("Current Node", field "current_node" f, true);
                    ("Next Speaker", field "next_speaker" f, true) ]
                  ++ (if truthy (field "started_at" f)
                      then [("Started At", field "started_at" f, false)]
                      else []))
             else
               mkEmbed "🎭 Scene Status" "No scene is currently active" Red []) ].
Proof.
  destruct (get_scene_status_outcome f) as (d & Hr & Hd & Hk & Ha & Hf).
  destruct (engine_get_scene_status_same f) as [Hr' Hd'].
  rewrite Hr in Hr'. rewrite Hd in Hd'.
  unfold scenestatus, iobind, prepend, ret, lift.
  destruct (engine_get_scene_status f) as [r0 d0 t0].
  cbn in Hr', Hd'. subst r0 d0. cbn -[dget dget_default].
  rewrite Ha.
  destruct (scene_active f) eqn:Hact; cbn -[dget dget_default]; [|auto].
  assert (Hdef : forall k, In k status_keys ->
                   dget_default k (JStr "Unknown") d = field k f).
  { intros k Hin. rewrite <- (Hf k Hin). unfold dget_default, dget.
    destruct (lookup k d) eqn:El; [reflexivity|].
    exfalso. clear - Hr Hact El Hin.
    unfold get_scene_status in Hr. revert Hr. io_norm.
    destruct f as [| |j]; try discriminate.
    destruct j as [| | | | | |st]; try discriminate.
    destruct st as [|e st']; [discriminate|].
    cbn -[dget dget_default In]. intros [= <-].
    cbn in Hin. intuition (subst; discriminate). }
  rewrite !Hdef, (Hf "started_at") by (cbn; auto 10). auto.
Qed.

Lemma field_parsed k d : field k (Parsed (JObj d)) = dget k d.
Proof. reflexivity. Qed.

Lemma stop_scene_frame now f k :
  ~ In k ["scene_active"; "current_node"; "next_speaker"; "stopped_at"] ->
  field k (disk (stop_scene now f)) = field k f.
Proof.
  intros Hk.
  destruct (stop_scene_cases now f)
    as [(_ & _ & ->)|[(st & -> & _ & _ & ->)|(_ & _ & _ & ->)]]; auto.
  rewrite !field_parsed. unfold stopped_state.
  rewrite !dget_dset_other; auto; intros <-; apply Hk; cbn; auto.
Qed.

Lemma advance_scene_frame store now f k :
  ~ In k ["scene_active"; "current_node"; "next_speaker";
          "waiting_for_choice"; "ended_at"] ->
  field k (disk (advance_scene store now f)) = field k f.
Proof.
  intros Hk.
  destruct (advance_scene_paths store now f) as
    [_ _ ->|_ _ _ ->|st s c g nd -> _ _ _ _ _ _ _ _ ->
    |st s c g nd t tn -> _ _ _ _ _ _ _ _ _ _ _ ->]; auto;
    rewrite !field_parsed; unfold ended_state, moved_state;
    rewrite !dget_dset_other; auto; intros <-; apply Hk; cbn; auto 10.
Qed.

Lemma coherent_inactive store f : scene_active f = false -> coherent store f.
Proof. intros H Ha. congruence. Qed.

Lemma coherent_initial store name node now g nd :
  graph_of store name = Some g -> lookup node g = Some (JObj nd) ->
  truthy (dget "speaker" nd) = true ->
  coherent store (Parsed (initial_state name node (dget "speaker" nd) now)).
Proof.
  intros Hg Hn Hs _. exists name, node, g, nd. repeat split; auto.
Qed.

Lemma coherent_moved store st s g t tn :
  dget "scene" st = JStr s -> graph_of store s = Some g ->
  lookup t g = Some (JObj tn) -> truthy (dget "speaker" tn) = true ->
  coherent store (Parsed (JObj (moved_state (JStr t) (dget "speaker" tn) st))).
Proof.
  intros Hs Hg Ht Hsp _. exists s, t, g, tn.
  rewrite !field_parsed. unfold moved_state. dict_simpl. repeat split; auto.
Qed.

Lemma scene_active_ended now st :
  scene_active (Parsed (JObj (ended_state now st))) = false.
Proof.
  rewrite scene_active_parsed. unfold ended_state. dict_simpl. reflexivity.
Qed.

(** X8: [start_scene], [advance_scene] and [stop_scene] keep the state
    coherent: while the scene is active, [next_speaker] is the speaker that
    the graph of [scene] declares for [current_node]. *)
Theorem coordinator_keeps_coherent store now name node f :
  coherent store f ->
  coherent store (disk (start_scene store now name node f)) /\
  coherent store (disk (advance_scene store now f)) /\
  coherent store (disk (stop_scene now f)).
Proof.
  intros Hc. split; [|split].
  - destruct (start_scene_cases store now name node f)
      as [[_ ->]|(g & nd & Hg & Hn & Hs & _ & ->)]; auto.
    eapply coherent_initial; eauto.
  - destruct (advance_scene_paths store now f) as
      [_ _ ->|_ _ _ ->|st s c g nd _ _ _ _ _ _ _ _ _ ->
      |st s c g nd t tn _ _ Hs _ Hg _ _ _ Ht Hsp _ _ ->]; auto.
    + apply coherent_inactive, scene_active_ended.
    + eapply coherent_moved; eauto.
  - destruct (stop_scene_cases now f)
      as [(_ & _ & ->)|[(st & _ & _ & _ & ->)|(_ & _ & _ & ->)]]; auto.
    apply coherent_inactive. rewrite scene_active_parsed.
    unfold stopped_state. dict_simpl. reflexivity.
Qed.

(** X9: what [advance_scene] returns, unless it is [None], is the data of
    the node it has made current: the state it leaves is active, does not
    wait for a choice, and names that node and its speaker. *)
Theorem advance_returns_current_node store now f v :
  result (advance_scene store now f) = Ret v -> v <> JNull ->
  exists s c g nd,
    v = JObj nd /\
    field "scene" (disk (advance_scene store now f)) = JStr s /\
    field "current_node" (disk (advance_scene store now f)) = JStr c /\
    graph_of store s = Some g /\ lookup c g = Some (JObj nd) /\
    field "next_speaker" (disk (advance_scene store now f)) = dget "speaker" nd /\
    field "waiting_for_choice" (disk (advance_scene store now f)) = JBool false /\
    scene_active (disk (advance_scene store now f)) = true.
Proof.
  intros Hr Hv.
  destruct (advance_scene_paths store now f) as
    [_ H _|_ _ H _|st s c g nd _ _ _ _ _ _ _ _ H _
    |st s c g nd t tn _ Ha Hs _ Hg _ _ _ Ht Hsp _ H Hd]; try congruence.
  rewrite Hr in H. injection H as ->.
  exists s, t, g, tn. rewrite Hd, scene_active_parsed, !field_parsed.
  unfold moved_state. dict_simpl. repeat split; auto.
Qed.

(** ** Listing, configuration and the monitoring switch *)

Lemma endswith_spec s suffix :
  endswith s suffix = true <-> exists stem, s = (stem ++ suffix)%string.
Proof.
  split.
  - induction s as [|a rest IH]; cbn [endswith].
    + destruct (String.eqb "" suffix) eqn:E; [|discriminate].
      apply String.eqb_eq in E. subst. now exists "".
    + destruct (String.eqb (String a rest) suffix) eqn:E.
      * apply String.eqb_eq in E. subst. now exists "".
      * intros H. destruct (IH H) as (stem & ->). now exists (String a stem).
  - intros (stem & ->). induction stem as [|a stem IH]; cbn [append].
    + destruct suffix; cbn [endswith]; now rewrite String.eqb_refl.
    + cbn [endswith]. rewrite IH.
      now destruct (String.eqb (String a (stem ++ suffix)) suffix).
Qed.

Lemma insert_sorted_perm x : forall l, Permutation (insert_sorted x l) (x :: l).
Proof.
  induction l as [|y l IH]; cbn [insert_sorted]; [reflexivity|].
  destruct (String.leb x y); [reflexivity|].
  rewrite IH. apply perm_swap.
Qed.

Lemma insert_sorted_hd x y l :
  str_le y x -> HdRel str_le y l -> HdRel str_le y (insert_sorted x l).
Proof.
  intros Hyx Hl. destruct l as [|z l]; cbn [insert_sorted].
  - now constructor.
  - destruct (String.leb x z); constructor; auto.
    now inversion Hl.
Qed.

Lemma insert_sorted_sorted x : forall l,
  Sorted str_le l -> Sorted str_le (insert_sorted x l).
Proof.
  induction l as [|y l IH]; intros Hs; cbn [insert_sorted].
  - repeat constructor.
  - destruct (String.leb x y) eqn:E.
    + constructor; auto.
    + inversion Hs; subst. constructor; auto.
      apply insert_sorted_hd; auto.
      destruct (String.leb_total x y) as [H|H]; [congruence|exact H].
Qed.

Lemma py_sorted_perm l : Permutation (py_sorted l) l.
Proof.
  induction l as [|x l IH]; cbn [py_sorted fold_right]; [reflexivity|].
  fold (py_sorted l). rewrite insert_sorted_perm. now constructor.
Qed.

Lemma py_sorted_sorted l : Sorted str_le (py_sorted l).
Proof.
  induction l as [|x l IH]; cbn [py_sorted fold_right]; [constructor|].
  now apply insert_sorted_sorted.
Qed.

Lemma list_scenes_outcome dir f :
  let l := match dir with
           | Entries names =>
               py_sorted (filter (fun filename => endswith filename ".json") names)
           | _ => []
           end in
  result (list_scenes dir f) = Ret l /\ disk (list_scenes dir f) = f /\
  result (list_available_scenes dir f) = Ret l.
Proof.
  unfold list_scenes, list_available_scenes. io_norm.
  destruct dir; cbn; auto.
Qed.

(** X19: [list_scenes] and [list_available_scenes] return, in ascending
    order, exactly the directory entries whose name ends in [.json], each
    as often as it is listed; nothing when the directory is missing or its
    listing fails.  They do not change the state file. *)
Theorem list_scenes_sorted_json_names (dir : directory) (f : file) :
  exists l,
    result (list_scenes dir f) = Ret l /\
    result (list_available_scenes dir f) = Ret l /\
    disk (list_scenes dir f) = f /\
    Sorted str_le l /\
    match dir with
    | Entries names =>
        Permutation l (filter (fun filename => endswith filename ".json") names) /\
        (forall name, In name l <->
                      In name names /\ exists stem, name = (stem ++ ".json")%string)
    | _ => l = []
    end.
Proof.
  destruct (list_scenes_outcome dir f) as (Hr & Hd & Hr').
  eexists. split; [exact Hr|]. split; [exact Hr'|]. split; [exact Hd|].
  destruct dir as [| |names]; try (split; [constructor|reflexivity]).
  split; [apply py_sorted_sorted|]. split; [apply py_sorted_perm|].
  intros name. rewrite <- endswith_spec.
  split.
  - intros Hin. apply (Permutation_in _ (py_sorted_perm _)) in Hin.
    now apply filter_In in Hin.
  - intros Hin. apply (Permutation_in _ (Permutation_sym (py_sorted_perm _))).
    now apply filter_In.
Qed.

Lemma get_valid_subset c name token :
  In (name, token) (get_valid_bot_tokens c) ->
  In (name, token) (get_bot_tokens c) /\ token_set token = true /\
  10 < String.length token.
Proof.
  unfold get_valid_bot_tokens. intros H. apply filter_In in H as [Hin H].
  apply andb_prop in H as [Hs Hl]. apply Nat.ltb_lt in Hl. auto.
Qed.

(** X20: a configuration with a token that [get_valid_bot_tokens] keeps
    passes [validate_config] without error; every token it keeps is one of
    the four bot tokens, is set, and has more than ten characters. *)
Theorem valid_bot_tokens_pass_validation (c : config) :
  get_valid_bot_tokens c <> [] ->
  config_result (validate_config c) = Ret tt /\
  config_errors (validate_config c) = [] /\
  forall name token,
    In (name, token) (get_valid_bot_tokens c) ->
    In (name, token) (get_bot_tokens c) /\ token_set token = true /\
    10 < String.length token.
Proof.
  intros Hne.
  assert (Hex : exists t, In t (filter token_set (bot_tokens c))).
  { destruct (get_valid_bot_tokens c) as [|[name token] rest] eqn:E; [congruence|].
    assert (Hin : In (name, token) (get_valid_bot_tokens c)) by (rewrite E; now left).
    destruct (get_valid_subset _ _ _ Hin) as (Hb & Hs & _).
    exists token. apply filter_In. split; [|exact Hs].
    unfold get_bot_tokens, bot_tokens in *. cbn in Hb |- *.
    intuition congruence. }
  destruct Hex as (t & Ht).
  unfold validate_config. cbn [config_result config_errors].
  destruct (filter token_set (bot_tokens c)); [contradiction|].
  split; [reflexivity|]. split; [reflexivity|].
  intros name token. apply get_valid_subset.
Qed.

Lemma short_token_not_valid token :
  negb (token_set token) || Nat.leb (String.length token) 10 = true ->
  token_set token && Nat.ltb 10 (String.length token) = false.
Proof.
  intros H. destruct (token_set token); [|reflexivity].
  cbn [negb orb andb] in H |- *. apply Nat.leb_le in H. now apply Nat.ltb_ge.
Qed.

(** X21: a configuration that has a token set, and none set with more
    than ten characters, passes [validate_config] although
    [get_valid_bot_tokens] returns no token. *)
Theorem short_tokens_pass_validation (c : config) :
  existsb token_set (bot_tokens c) = true ->
  forallb (fun token => negb (token_set token) || Nat.leb (String.length token) 10)
    (bot_tokens c) = true ->
  config_result (validate_config c) = Ret tt /\ get_valid_bot_tokens c = [].
Proof.
  intros Hex Hall. split.
  - unfold validate_config. cbn [config_result].
    apply existsb_exists in Hex as (t & Hin & Hs).
    assert (Hf : In t (filter token_set (bot_tokens c))) by (apply filter_In; auto).
    destruct (filter token_set (bot_tokens c)); [contradiction|reflexivity].
  - unfold bot_tokens in Hall. cbn [forallb] in Hall.
    repeat (apply andb_prop in Hall as [? Hall]).
    unfold get_valid_bot_tokens, get_bot_tokens. cbn [filter].
    repeat match goal with
           | H : negb (token_set ?t) || _ = true |- _ =>
               rewrite (short_token_not_valid t H); clear H
           end.
    reflexivity.
Qed.

Ltac monitor_simpl :=
  cbn [monitor_step start_scene_monitoring stop_scene_monitoring fst
       is_running check_task tasks_created cancelled] in *.

Lemma monitor_inv_step m c : monitor_inv m -> monitor_inv (monitor_step m c).
Proof.
  unfold monitor_inv. destruct m as [run task n canc]. monitor_simpl.
  intros [Hc Hs]. destruct c; monitor_simpl.
  - (* start *)
    destruct run; monitor_simpl.
    + split; auto.
    + destruct Hs as [Hall Ht]. split.
      * intros t Hin. specialize (Hc t Hin). lia.
      * exists n. repeat split; auto.
        intros Hin. specialize (Hc n Hin). lia.
  - (* stop *)
    destruct task as [t|]; monitor_simpl.
    + destruct run.
      * destruct Hs as (t' & [= <-] & -> & Hlt & Hnin). split.
        -- intros u [<-|Hin]; [lia|auto].
        -- split.
           ++ intros u Hu. assert (u = t \/ u < t) as [->|H] by lia;
                [now left|right; auto].
           ++ intros u [= <-]. lia.
      * destruct Hs as [Hall Ht]. split.
        -- intros u [<-|Hin]; [now apply Ht|auto].
        -- split; [intros u Hu; right; auto|exact Ht].
    + destruct run.
      * destruct Hs as (t' & Hn & _). discriminate.
      * split; auto.
Qed.

Lemma monitor_inv_run calls : forall m,
  monitor_inv m -> monitor_inv (fold_left monitor_step calls m).
Proof.
  induction calls as [|c calls IH]; intros m Hm; cbn [fold_left]; auto.
  apply IH. now apply monitor_inv_step.
Qed.

Lemma filter_none {A} (p : A -> bool) l :
  (forall x, In x l -> p x = false) -> filter p l = [].
Proof.
  induction l as [|a l IH]; intros H; cbn [filter]; auto.
  rewrite (H a) by now left. apply IH. intros x Hx. apply H. now right.
Qed.

Lemma not_cancelled_false t canc :
  In t canc -> negb (existsb (Nat.eqb t) canc) = false.
Proof.
  intros Hin. apply negb_false_iff, existsb_exists.
  exists t. split; [exact Hin|apply Nat.eqb_refl].
Qed.

Lemma not_cancelled_true t canc :
  ~ In t canc -> negb (existsb (Nat.eqb t) canc) = true.
Proof.
  intros Hnin. apply negb_true_iff.
  destruct (existsb (Nat.eqb t) canc) eqn:E; [|reflexivity].
  apply existsb_exists in E as (u & Hin & Hu). apply Nat.eqb_eq in Hu. subst.
  contradiction.
Qed.

Lemma monitor_inv_live m :
  monitor_inv m ->
  live_tasks m =
  if is_running m then
    match check_task m with Some t => [t] | None => [] end
  else [].
Proof.
  intros [Hc Hs]. unfold live_tasks. destruct (is_running m).
  - destruct Hs as (t & -> & -> & Hlt & Hnin).
    rewrite seq_S, filter_app. cbn [filter Nat.add].
    rewrite (not_cancelled_true _ _ Hnin), filter_none; [reflexivity|].
    intros u Hu. apply in_seq in Hu. apply not_cancelled_false, Hlt. lia.
  - destruct Hs as [Hall _]. apply filter_none.
    intros u Hu. apply in_seq in Hu. apply not_cancelled_false, Hall. lia.
Qed.

Lemma new_monitor_inv : monitor_inv new_monitor.
Proof.
  split; cbn; [intros t []|]. split; [intros u Hu; lia|discriminate].
Qed.

(** X22: after any sequence of calls of [start_scene_monitoring] and
    [stop_scene_monitoring] on a new engine, at most one polling task is
    not cancelled: the one the engine holds while it is running, none
    otherwise. *)
Theorem monitoring_runs_at_most_one_task (calls : list monitor_call) :
  let m := fold_left monitor_step calls new_monitor in
  live_tasks m =
    (if is_running m then
       match check_task m with Some t => [t] | None => [] end
     else []) /\
  (is_running m = true -> exists t, check_task m = Some t) /\
  length (live_tasks m) <= 1.
Proof.
  intros m.
  pose proof (monitor_inv_run calls _ new_monitor_inv) as Hinv. fold m in Hinv.
  pose proof (monitor_inv_live m Hinv) as Hlive.
  split; [exact Hlive|]. split.
  - intros Hrun. destruct Hinv as [_ Hs]. rewrite Hrun in Hs.
    destruct Hs as (t & Ht & _). eauto.
  - rewrite Hlive. destruct (is_running m); [destruct (check_task m)|]; cbn; lia.
Qed.

Lemma scene_check_iteration_outcome p store now f :
  _scene_check_iteration p store now f =
  let r := _check_and_participate p store now f in
  mkOutcome (Ret tt) (disk r) (trace r ++ [Sleep (inject_Z 3)]).
Proof.
  unfold _scene_check_iteration, try_except, iobind, prepend.
  pose proof (tick_never_raises p store now f) as Hr.
  destruct (_check_and_participate p store now f) as [r d t].
  cbn in Hr. subst r. reflexivity.
Qed.

Lemma poll_round_single p store now f :
  disk (poll_round [p] store now f) = disk (_check_and_participate p store now f).
Proof. rewrite poll_round_cons_disk. reflexivity. Qed.

(** X6: every pass of [_scene_check_loop] is the tick followed by the
    three-second sleep: the handler with the five-second sleep is never
    reached.  The loop does not raise, and [n] passes leave the state file
    of [n] polling rounds of the participant. *)
Theorem scene_check_loop_never_backs_off
    (p : participant) (store : scene_store) (n : nat) :
  forall (clock : nat -> string) (f : file),
    result (_scene_check_loop p store clock n f) = Ret tt /\
    disk (_scene_check_loop p store clock n f) = poll_rounds [p] store clock n f /\
    trace (_scene_check_iteration p store (clock 0) f) =
      trace (_check_and_participate p store (clock 0) f) ++ [Sleep (inject_Z 3)].
Proof.
  induction n as [|n IH]; intros clock f.
  - repeat split; try reflexivity. now rewrite scene_check_iteration_outcome.
  - cbn [_scene_check_loop poll_rounds]. unfold iobind.
    rewrite scene_check_iteration_outcome. cbv zeta. cbn [result disk trace].
    rewrite poll_round_single.
    destruct (IH (fun i => clock (S i)) (disk (_check_and_participate p store (clock 0) f)))
      as (Hr & Hd & _).
    destruct (_scene_check_loop p store (fun i => clock (S i)) n _) as [r d t].
    cbn in Hr, Hd |- *. subst. repeat split; reflexivity.
Qed.

(** ** Turns *)

Lemma stop_scene_leaves_inactive now f :
  is_record f = true -> scene_active (disk (stop_scene now f)) = false.
Proof.
  intros Hrec.
  destruct (stop_scene_cases now f)
    as [(Hf & _ & ->)|[(st & -> & _ & _ & ->)|(_ & Hn & _)]]; [| |congruence].
  - unfold scene_active, field.
    destruct (load_scene_state_value f) as [| | | | | |d]; auto.
    destruct d; [reflexivity|discriminate].
  - apply scene_active_stopped.
Qed.

(** X1: a tick of [_check_and_participate] that sends, sleeps, calls
    [advance_scene] or changes the state file found an active state whose
    [next_speaker] is the name of the bot, at a node of the graph of its
    scene whose [speaker] is the name of the bot. *)
Theorem tick_acts_only_on_its_turn
    (p : participant) (store : scene_store) (now : string) (f : file) :
  actions (trace (_check_and_participate p store now f)) <> [] \/
  disk (_check_and_participate p store now f) <> f ->
  my_turn p store f.
Proof.
  intros Hacts.
  destruct (tick_cases p store now f) as [[Ha Hd]|Hturn]; [|exact Hturn].
  destruct Hacts as [H|H]; contradiction.
Qed.

Lemma tick_acts_only_on_its_turn_witness :
  let f := state_at "demo.json" "start" (JStr "A") in
  actions (trace (_check_and_participate bot_A demo_store "t1" f)) <> [] /\
  my_turn bot_A demo_store f.
Proof.
  intros f.
  assert (H : actions (trace (_check_and_participate bot_A demo_store "t1" f)) <> [])
    by (vm_compute; discriminate).
  split; [exact H|].
  apply (tick_acts_only_on_its_turn bot_A demo_store "t1" f). left. exact H.
Defined.

(** X2: on one state file two participants with different names never
    both act: the tick of at least one of them does nothing. *)
Theorem participants_never_share_a_turn
    (p1 p2 : participant) (store : scene_store) (now1 now2 : string) (f : file) :
  bot_name p1 <> bot_name p2 ->
  silent_tick p1 store now1 f \/ silent_tick p2 store now2 f.
Proof.
  intros Hne. unfold silent_tick.
  destruct (tick_cases p1 store now1 f)
    as [H1|(st & s1 & c1 & g1 & nd1 & Hf & _ & Hn1 & _)]; [now left|].
  destruct (tick_cases p2 store now2 f)
    as [H2|(st' & s2 & c2 & g2 & nd2 & Hf' & _ & Hn2 & _)]; [now right|].
  rewrite Hf in Hf'. injection Hf' as <-.
  rewrite Hn1 in Hn2. injection Hn2 as Heq. contradiction.
Qed.

Lemma participants_never_share_a_turn_witness :
  let f := state_at "demo.json" "start" (JStr "A") in
  bot_name bot_A <> bot_name bot_B /\
  (silent_tick bot_A demo_store "t1" f \/ silent_tick bot_B demo_store "t2" f).
Proof.
  intros f.
  assert (H : bot_name bot_A <> bot_name bot_B) by discriminate.
  split; [exact H|].
  exact (participants_never_share_a_turn bot_A bot_B demo_store "t1" "t2" f H).
Defined.

(** X3: a tick on a state that is not active does nothing, and so does a
    tick on the state that [stop_scene] leaves. *)
Theorem idle_scene_silences_participants
    (p : participant) (store : scene_store) (now stopped : string) (f : file) :
  (scene_active f = false -> silent_tick p store now f) /\
  (is_record f = true -> silent_tick p store now (disk (stop_scene stopped f))).
Proof.
  split.
  - intros Hidle. now apply tick_idle.
  - intros Hrec. apply tick_idle. now apply stop_scene_leaves_inactive.
Qed.

Lemma idle_scene_silences_participants_witness :
  let f := state_at "demo.json" "start" (JStr "A") in
  (scene_active Missing = false /\ silent_tick bot_A demo_store "t1" Missing) /\
  (is_record f = true /\
   silent_tick bot_A demo_store "t1" (disk (stop_scene "t0" f))).
Proof.
  intros f.
  destruct (idle_scene_silences_participants bot_A demo_store "t1" "t0" Missing)
    as [H1 _].
  destruct (idle_scene_silences_participants bot_A demo_store "t1" "t0" f)
    as [_ H2].
  split; (split; [reflexivity|]).
  - apply H1. reflexivity.
  - apply H2. reflexivity.
Defined.



(** X5: on its turn, at a node whose [wait] is no number, or an integer
    from [float_limit] on, a participant sends the text (if it can) and
    fails in the sleep: [advance_scene] is not called and the state file
    stays as it was. *)
Theorem bad_wait_sends_without_advancing
    (p : participant) (store : scene_store) (now : string)
    (st : dict) (s c : string) (g nd : dict) :
  truthy (dget "scene_active" st) = true ->
  dget "next_speaker" st = JStr (bot_name p) ->
  dget "scene" st = JStr s -> dget "current_node" st = JStr c -> c <> "" ->
  graph_of store s = Some g -> lookup c g = Some (JObj nd) ->
  dget "speaker" nd = JStr (bot_name p) ->
  wait_ok nd = false ->
  let f := Parsed (JObj st) in
  let r := _check_and_participate p store now f in
  disk r = f /\
  actions (trace r) =
    match bot_instance p with
    | Channel true => [Send (bot_name p, dget_default "text" (JStr "") nd)]
    | _ => []
    end.
Proof.
  intros Hact Hturn Hscene Hcur Hc Hg Hnode Hsp Hw.
  apply (tick_on_bad_wait p store now st s c g nd); auto.
  intros ->. discriminate.
Qed.

Lemma bad_wait_sends_without_advancing_witness :
  let st := [ ("scene", JStr "badwait.json"); ("current_node", JStr "start");
              ("next_speaker", JStr "A"); ("waiting_for_choice", JBool false);
              ("started_at", JStr "t0"); ("scene_active", JBool true) ] in
  let r := _check_and_participate bot_A extra_store "t1" (Parsed (JObj st)) in
  disk r = Parsed (JObj st) /\
  actions (trace r) = [Send ("A", JStr "hi")].
Proof.
  intros st.
  apply (bad_wait_sends_without_advancing bot_A extra_store "t1" st "badwait.json"
           "start" badwait_graph
           [("speaker", JStr "A"); ("text", JStr "hi");
            ("wait", JStr "2"); ("next", JStr "end")]);
    try reflexivity; discriminate.
Defined.



(** ** Status and validation *)

Lemma coordinator_keeps_coherent_witness :
  let f := state_at "demo.json" "start" (JStr "A") in
  coherent demo_store f /\
  coherent demo_store (disk (start_scene demo_store "t1" "choice.json" "start" f)) /\
  coherent demo_store (disk (advance_scene demo_store "t1" f)) /\
  coherent demo_store (disk (stop_scene "t1" f)).
Proof.
  intros f.
  assert (H : coherent demo_store f).
  { intros _. exists "demo.json", "start", demo_graph,
      [("speaker", JStr "A"); ("text", JStr "hi"); ("next", JStr "end")].
    repeat split; reflexivity. }
  split; [exact H|].
  exact (coordinator_keeps_coherent demo_store "t1" "choice.json" "start" f H).
Defined.

Lemma advance_returns_current_node_witness :
  let f := state_at "demo.json" "start" (JStr "A") in
  let v := JObj [("speaker", JStr "B"); ("text", JStr "bye")] in
  result (advance_scene demo_store "t1" f) = Ret v /\ v <> JNull /\
  exists s c g nd,
    v = JObj nd /\
    field "scene" (disk (advance_scene demo_store "t1" f)) = JStr s /\
    field "current_node" (disk (advance_scene demo_store "t1" f)) = JStr c /\
    graph_of demo_store s = Some g /\ lookup c g = Some (JObj nd) /\
    field "next_speaker" (disk (advance_scene demo_store "t1" f)) = dget "speaker" nd /\
    field "waiting_for_choice" (disk (advance_scene demo_store "t1" f)) = JBool false /\
    scene_active (disk (advance_scene demo_store "t1" f)) = true.
Proof.
  intros f v.
  assert (Hr : result (advance_scene demo_store "t1" f) = Ret v) by reflexivity.
  assert (Hv : v <> JNull) by discriminate.
  split; [exact Hr|]. split; [exact Hv|].
  exact (advance_returns_current_node demo_store "t1" f v Hr Hv).
Defined.

(** X10: [advance_scene] and [stop_scene] change no field of the state
    besides [scene_active], [current_node], [next_speaker],
    [waiting_for_choice], [ended_at] and [stopped_at]. *)
Theorem advance_and_stop_keep_other_fields
    (store : scene_store) (now : string) (f : file) (k : string) :
  ~ In k ["scene_active"; "current_node"; "next_speaker";
          "waiting_for_choice"; "ended_at"; "stopped_at"] ->
  field k (disk (advance_scene store now f)) = field k f /\
  field k (disk (stop_scene now f)) = field k f.
Proof.
  intros Hk. split.
  - apply advance_scene_frame. intros Hin. apply Hk. cbn in Hin |- *. tauto.
  - apply stop_scene_frame. intros Hin. apply Hk. cbn in Hin |- *. tauto.
Qed.

Lemma advance_and_stop_keep_other_fields_witness :
  let f := state_at "demo.json" "start" (JStr "A") in
  ~ In "started_at" ["scene_active"; "current_node"; "next_speaker";
                     "waiting_for_choice"; "ended_at"; "stopped_at"] /\
  field "started_at" (disk (advance_scene demo_store "t1" f)) = field "started_at" f /\
  field "started_at" (disk (stop_scene "t1" f)) = field "started_at" f.
Proof.
  intros f.
  assert (H : ~ In "started_at" ["scene_active"; "current_node"; "next_speaker";
                                 "waiting_for_choice"; "ended_at"; "stopped_at"]).
  { cbn. intros [H|[H|[H|[H|[H|[H|[]]]]]]]; discriminate. }
  split; [exact H|].
  exact (advance_and_stop_keep_other_fields demo_store "t1" f "started_at" H).
Defined.

(** X11: [get_scene_status] of the engine returns what the manager's
    returns and never writes: a dict whose [active] is true exactly when
    the scene is active and whose other fields are those of the state. *)
Theorem status_reads_state (f : file) :
  exists d,
    result (engine_get_scene_status f) = Ret (JObj d) /\
    result (get_scene_status f) = Ret (JObj d) /\
    disk (engine_get_scene_status f) = f /\
    has_key "active" d = true /\
    truthy (dget "active" d) = scene_active f /\
    (forall k, In k status_keys -> dget k d = field k f).
Proof.
  destruct (get_scene_status_outcome f) as (d & Hr & Hd & Hk & Ha & Hf).
  destruct (engine_get_scene_status_same f) as [Hr' Hd'].
  exists d. rewrite Hr', Hd'. auto 10.
Qed.

(** X15: [validate_scene] always returns a report and never writes the
    state file; the report is valid exactly when it lists no error, and
    its node count is the number of entries of the scene's graph. *)
Theorem validation_report_is_consistent
    (store : scene_store) (name : string) (f : file) :
  exists v,
    result (validate_scene store name f) = Ret v /\
    disk (validate_scene store name f) = f /\
    (valid v = true <-> errors v = []) /\
    (forall g, graph_of store name = Some g -> nodes v = length g).
Proof.
  destruct (validate_scene_outcome store name f) as [Hr Hd].
  eexists. split; [exact Hr|]. split; [exact Hd|].
  split; [apply validate_data_errors|].
  intros g Hg. unfold graph_of in Hg.
  destruct (scene_file store name) as [| |j]; try discriminate.
  destruct j; try discriminate. injection Hg as ->.
  destruct g as [|e g']; [reflexivity|].
  rewrite validate_data_dict by discriminate.
  destruct (graph_valid (e :: g')); reflexivity.
Qed.

(** X16: [validate_scene] reports a scene valid exactly when its file
    holds a graph with a [start] node in which every node is a dict with a
    hashable [speaker], a [text], and a [next] that is absent, of some
    other type, the name of a node, or a mapping to names of nodes. *)
Theorem validation_accepts_exactly
    (store : scene_store) (name : string) (f : file) :
  exists v,
    result (validate_scene store name f) = Ret v /\
    (valid v = true <->
     exists g, graph_of store name = Some g /\ graph_valid g = true).
Proof.
  destruct (validate_scene_outcome store name f) as [Hr _].
  eexists. split; [exact Hr|].
  rewrite validate_data_valid_iff. unfold graph_of.
  destruct (scene_file store name) as [| |j].
  1-2: split; intros (g & Hg & _); discriminate.
  split; intros (g & Hg & Hv).
  - subst j. eauto.
  - destruct j; try discriminate. injection Hg as ->. eauto.
Qed.

(** X17: the speakers of a valid report are the speakers of the nodes:
    every node's speaker is listed, every listed speaker is the speaker of
    a node, and no speaker is listed twice. *)
Theorem validation_lists_speakers
    (store : scene_store) (name : string) (f : file) (g : dict) (v : validation) :
  graph_of store name = Some g ->
  result (validate_scene store name f) = Ret v -> valid v = true ->
  distinct_speakers (speakers v) = true /\
  (forall n, In (JObj n) (values g) ->
             existsb (hash_eq (dget "speaker" n)) (speakers v) = true) /\
  (forall x, In x (speakers v) ->
             exists n, In (JObj n) (values g) /\ x = dget "speaker" n).
Proof.
  intros Hg Hr Hv.
  destruct (validate_scene_outcome store name f) as [Hr' _].
  rewrite Hr in Hr'. injection Hr' as ->.
  unfold graph_of in Hg.
  destruct (scene_file store name) as [| |j]; try discriminate.
  destruct j; try discriminate. injection Hg as ->.
  destruct g as [|e g']; [discriminate|]. set (g := e :: g') in *.
  rewrite validate_data_dict in Hv |- * by discriminate.
  destruct (graph_valid g) eqn:Hgv; [|discriminate].
  cbn [speakers].
  unfold graph_valid in Hgv. apply andb_prop in Hgv as [_ Hall].
  rewrite forallb_forall in Hall.
  split; [now apply fold_add_speaker_distinct|]. split.
  - intros n Hin. apply fold_add_speaker_covers; auto.
    eapply node_valid_hashable. apply Hall, Hin.
  - intros x Hin. destruct (fold_add_speaker_origin _ _ _ Hin) as [[]|H]; exact H.
Qed.

Lemma validation_lists_speakers_witness :
  let v := validate_data (JObj choice_graph) in
  graph_of demo_store "choice.json" = Some choice_graph /\
  result (validate_scene demo_store "choice.json" Missing) = Ret v /\
  valid v = true /\
  distinct_speakers (speakers v) = true /\
  (forall n, In (JObj n) (values choice_graph) ->
             existsb (hash_eq (dget "speaker" n)) (speakers v) = true) /\
  (forall x, In x (speakers v) ->
             exists n, In (JObj n) (values choice_graph) /\ x = dget "speaker" n).
Proof.
  intros v.
  split; [reflexivity|]. split; [reflexivity|]. split; [reflexivity|].
  exact (validation_lists_speakers demo_store "choice.json" Missing choice_graph v
           eq_refl eq_refl eq_refl).
Defined.

(** X18: a scene that [validate_scene] reports valid has a well-formed
    graph as soon as every node has a truthy speaker and a [next] that is
    absent, a nonempty name, or a nonempty mapping to nonempty names. *)
Theorem validated_strict_graph_is_well_formed
    (store : scene_store) (name : string) (f : file) (g : dict) (v : validation) :
  graph_of store name = Some g ->
  result (validate_scene store name f) = Ret v -> valid v = true ->
  forallb node_strict (values g) = true ->
  well_formed g = true.
Proof.
  intros Hg Hr Hv Hs.
  destruct (validate_scene_outcome store name f) as [Hr' _].
  rewrite Hr in Hr'. injection Hr' as ->.
  apply validate_data_valid_iff in Hv as (g' & Hj & Hgv).
  unfold graph_of in Hg.
  destruct (scene_file store name) as [| |j]; try discriminate.
  destruct j; try discriminate. injection Hg as ->. injection Hj as ->.
  now apply graph_valid_strict_well_formed.
Qed.

Lemma validated_strict_graph_is_well_formed_witness :
  let v := validate_data (JObj choice_graph) in
  graph_of demo_store "choice.json" = Some choice_graph /\
  result (validate_scene demo_store "choice.json" Missing) = Ret v /\
  valid v = true /\
  forallb node_strict (values choice_graph) = true /\
  well_formed choice_graph = true.
Proof.
  intros v.
  split; [reflexivity|]. split; [reflexivity|]. split; [reflexivity|].
  split; [reflexivity|].
  exact (validated_strict_graph_is_well_formed demo_store "choice.json" Missing
           choice_graph v eq_refl eq_refl eq_refl eq_refl).
Defined.

Lemma valid_bot_tokens_pass_validation_witness :
  get_valid_bot_tokens sample_config <> [] /\
  config_result (validate_config sample_config) = Ret tt /\
  config_errors (validate_config sample_config) = [] /\
  forall name token,
    In (name, token) (get_valid_bot_tokens sample_config) ->
    In (name, token) (get_bot_tokens sample_config) /\ token_set token = true /\
    10 < String.length token.
Proof.
  assert (H : get_valid_bot_tokens sample_config <> []) by discriminate.
  split; [exact H|].
  exact (valid_bot_tokens_pass_validation sample_config H).
Defined.

Lemma short_tokens_pass_validation_witness :
  existsb token_set (bot_tokens short_config) = true /\
  forallb (fun token => negb (token_set token) || Nat.leb (String.length token) 10)
    (bot_tokens short_config) = true /\
  config_result (validate_config short_config) = Ret tt /\
  get_valid_bot_tokens short_config = [].
Proof.
  split; [reflexivity|]. split; [reflexivity|].
  exact (short_tokens_pass_validation short_config eq_refl eq_refl).
Defined.

(** ** The listing command; status along a run *)

(** X23: the [listscenes] command defers and follows up with one embed
    without fields: orange with [No scenes found] when the directory has
    no entry ending in [.json], blue with one bulleted line per scene, in
    ascending order, otherwise.  It does not change the state file. *)
Theorem listscenes_reply (dir : directory) (f : file) :
  exists e,
    result (listscenes dir f) = Ret [Defer; FollowupEmbed e] /\
    disk (listscenes dir f) = f /\
    embed_title e = "📚 Available Scenes" /\ embed_fields e = [] /\
    ((embed_color_of e = Orange /\ embed_description e = "No scenes found" /\
      forall names, dir = Entries names ->
        forall name, In name names -> endswith name ".json" = false) \/
     (embed_color_of e = Blue /\
      exists names l,
        dir = Entries names /\ l <> [] /\ Sorted str_le l /\
        Permutation l (filter (fun filename => endswith filename ".json") names) /\
        embed_description e = String.concat newline (map bullet l))).
Proof.
  destruct (list_scenes_outcome dir f) as (Hr & Hd & _).
  unfold listscenes, iobind, prepend, ret.
  destruct (list_scenes dir f) as [r0 d0 t0]. cbn in Hr, Hd |- *. subst r0 d0.
  destruct dir as [| |names]; cbn.
  1-2: eexists; repeat split; left; repeat split; intros; discriminate.
  destruct (py_sorted (filter (fun filename => endswith filename ".json") names))
    as [|x l] eqn:E.
  - eexists. repeat split. left. repeat split.
    intros names' [= <-] name Hin.
    destruct (endswith name ".json") eqn:He; [|reflexivity].
    assert (Hf : In name (py_sorted (filter (fun filename => endswith filename ".json") names))).
    { apply (Permutation_in _ (Permutation_sym (py_sorted_perm _))).
      apply filter_In. auto. }
    rewrite E in Hf. contradiction.
  - eexists. repeat split. right. split; [reflexivity|].
    exists names, (x :: l). repeat split.
    + discriminate.
    + rewrite <- E. apply py_sorted_sorted.
    + rewrite <- E. apply py_sorted_perm.
Qed.

(** X24: after a successful [start_scene] the status is active and shows
    the scene, the starting node, its speaker and the start time; after a
    following [stop_scene] it is inactive, without node and speaker, with
    the scene and start time kept and the stop time added. *)
Theorem status_follows_start_and_stop
    (store : scene_store) (now later : string) (name node : string) (f : file)
    (g nd : dict) :
  graph_of store name = Some g -> lookup node g = Some (JObj nd) ->
  truthy (dget "speaker" nd) = true ->
  let started := disk (start_scene store now name node f) in
  let stopped := disk (stop_scene later started) in
  result (get_scene_status started) =
    Ret (JObj [ ("active", JBool true); ("scene", JStr name);
                ("current_node", JStr node);
                ("next_speaker", dget "speaker" nd);
                ("waiting_for_choice", JBool false);
                ("started_at", JStr now);
                ("ended_at", JNull); ("stopped_at", JNull) ]) /\
  result (get_scene_status stopped) =
    Ret (JObj [ ("active", JBool false); ("scene", JStr name);
                ("current_node", JNull); ("next_speaker", JNull);
                ("waiting_for_choice", JBool false);
                ("started_at", JStr now);
                ("ended_at", JNull); ("stopped_at", JStr later) ]).
Proof.
  intros Hg Hn Hs started stopped.
  destruct (start_scene_succeeds store now name node f g nd Hg Hn Hs) as [_ Hd].
  subst stopped started. rewrite Hd. unfold initial_state.
  split; [reflexivity|].
  match goal with
  | |- context [stop_scene later (Parsed (JObj ?st))] =>
      destruct (stop_scene_on_record later st) as [_ Hd']; [discriminate|]
  end.
  rewrite Hd'. reflexivity.
Qed.

Lemma status_follows_start_and_stop_witness :
  let started := disk (start_scene demo_store "t0" "demo.json" "start" Missing) in
  let stopped := disk (stop_scene "t1" started) in
  graph_of demo_store "demo.json" = Some demo_graph /\
  result (get_scene_status started) =
    Ret (JObj [ ("active", JBool true); ("scene", JStr "demo.json");
                ("current_node", JStr "start");
                ("next_speaker", JStr "A");
                ("waiting_for_choice", JBool false);
                ("started_at", JStr "t0");
                ("ended_at", JNull); ("stopped_at", JNull) ]) /\
  result (get_scene_status stopped) =
    Ret (JObj [ ("active", JBool false); ("scene", JStr "demo.json");
                ("current_node", JNull); ("next_speaker", JNull);
                ("waiting_for_choice", JBool false);
                ("started_at", JStr "t0");
                ("ended_at", JNull); ("stopped_at", JStr "t1") ]).
Proof.
  intros started stopped.
  split; [reflexivity|].
  exact (status_follows_start_and_stop demo_store "t0" "t1" "demo.json" "start"
           Missing demo_graph
           [("speaker", JStr "A"); ("text", JStr "hi"); ("next", JStr "end")]
           eq_refl eq_refl eq_refl).
Defined.

(** ** Exceptions and effects of the scene manager *)

Lemma start_scene_only_logs store now name node f :
  actions (trace (start_scene store now name node f)) = [].
Proof.
  unfold start_scene, actions. io_norm.
  destruct (scene_file store name) as [| |j]; auto.
  destruct j as [|b|z|q|s|l|g]; cbn; auto.
  - destruct b; cbn; auto.
  - destruct (z =? 0)%Z; cbn; auto.
  - destruct (Qeq_bool q 0); cbn; auto.
  - destruct (String.eqb s ""); cbn; auto. destruct (substring_of node s); cbn; auto.
  - destruct l; cbn; auto. destruct (eq_str j node || existsb _ l); cbn; auto.
  - destruct g as [|e g']; cbn -[has_key lookup]; auto.
    set (g := e :: g'). unfold has_key.
    destruct (lookup node g) as [x|] eqn:El; cbn -[lookup]; auto.
    destruct x as [| | | | | |nd]; cbn -[lookup]; auto.
    destruct (truthy (dget "speaker" nd)) eqn:Hs; cbn -[lookup]; auto.
Qed.

Lemma stop_scene_only_logs now f :
  actions (trace (stop_scene now f)) = [].
Proof.
  unfold stop_scene, actions. io_norm.
  destruct f as [| |j]; cbn; auto.
  destruct j as [|b|z|q|s|l|st]; cbn; auto.
  - destruct b; cbn; auto.
  - destruct (z =? 0)%Z; cbn; auto.
  - destruct (Qeq_bool q 0); cbn; auto.
  - destruct (String.eqb s ""); cbn; auto.
  - destruct l; cbn; auto.
  - destruct st as [|e st']; cbn -[dset]; auto.
Qed.

(** X25: no operation of the scene manager raises, whatever the state
    file and the scene files hold, and [start_scene], [advance_scene] and
    [stop_scene] only log: they send nothing and never sleep. *)
Theorem scene_manager_never_raises_nor_acts
    (store : scene_store) (now : string) (name node : string)
    (dir : directory) (f : file) :
  ((exists b, result (start_scene store now name node f) = Ret b) /\
   actions (trace (start_scene store now name node f)) = []) /\
  ((exists v, result (advance_scene store now f) = Ret v) /\
   actions (trace (advance_scene store now f)) = []) /\
  ((exists b, result (stop_scene now f) = Ret b) /\
   actions (trace (stop_scene now f)) = []) /\
  (exists d, result (get_scene_status f) = Ret d) /\
  (exists l, result (list_available_scenes dir f) = Ret l) /\
  (exists v, result (validate_scene store name f) = Ret v).
Proof.
  repeat split.
  - destruct (start_scene_cases store now name node f)
      as [[Hr _]|(g & nd & _ & _ & _ & Hr & _)]; eauto.
  - apply start_scene_only_logs.
  - apply advance_scene_only_logs.
  - apply advance_scene_only_logs.
  - destruct (stop_scene_cases now f)
      as [(_ & Hr & _)|[(st & _ & _ & Hr & _)|(_ & _ & Hr & _)]]; eauto.
  - apply stop_scene_only_logs.
  - destruct (get_scene_status_outcome f) as (d & Hr & _). eauto.
  - destruct (list_scenes_outcome dir f) as (_ & _ & Hr). eauto.
  - destruct (validate_scene_outcome store name f) as [Hr _]. eauto.
Qed.
